(** * LinkDecorator: URI scanning and decoration synchronisation

    Shallow embedding of [iterateUris], [getDecorations] and the
    [linkDecorator] plugin state of
    src/view/com/lightbox/ImageViewing/components/ImageDefaultHeader.tsx.

    JavaScript strings are lists of UTF-16 code units ([N]).  The regular
    expression

      /(^|\s|\()((https?:\/\/[\S]+)|((?<domain>[a-z][a-z0-9]*(\.[a-z0-9]+)+)[\S]* ))/gim

    (the blank before the last two parentheses is not in the source)
    is embedded by its backtracking semantics: at each start index the
    alternatives are tried in source order, quantifiers are greedy. *)

From Stdlib Require Import String Ascii List Bool Arith ZArith Lia.
Import ListNotations.

Definition char := N.
Definition jsstring := list char.

(** Literal strings of the source, as code units. *)
Definition js (s : string) : jsstring :=
  map (fun a => N.of_nat (nat_of_ascii a)) (list_ascii_of_string s).

(** ** Character classes of the ECMAScript regular expressions *)

(** LineTerminator: LF, CR, LS, PS ([^] in multiline mode). *)
Definition is_line_terminator (c : char) : bool :=
  N.eqb c 10 || N.eqb c 13 || N.eqb c 8232 || N.eqb c 8233.

(** [\s]: WhiteSpace and LineTerminator code points. *)
Definition is_ws (c : char) : bool :=
  N.eqb c 9 || N.eqb c 11 || N.eqb c 12 || N.eqb c 32 || N.eqb c 160
  || N.eqb c 5760 || (N.leb 8192 c && N.leb c 8202) || N.eqb c 8239
  || N.eqb c 8287 || N.eqb c 12288 || N.eqb c 65279
  || is_line_terminator c.

(** [[a-z]] under the [i] flag: ASCII letters of both cases. *)
Definition is_alpha (c : char) : bool :=
  (N.leb 65 c && N.leb c 90) || (N.leb 97 c && N.leb c 122).

Definition is_digit (c : char) : bool := N.leb 48 c && N.leb c 57.

(** [[a-z0-9]] under the [i] flag. *)
Definition is_alnum (c : char) : bool := is_alpha c || is_digit c.

(** A literal pattern character under the [i] flag: a lowercase ASCII
    letter also matches its uppercase form. *)
Definition ci_eq (lit c : char) : bool :=
  N.eqb c lit || (N.leb 97 lit && N.leb lit 122 && N.eqb c (lit - 32)).

Fixpoint ci_prefix (lits : jsstring) (l : jsstring) : bool :=
  match lits, l with
  | [], _ => true
  | a :: lits', c :: l' => ci_eq a c && ci_prefix lits' l'
  | _ :: _, [] => false
  end.

(** Case-sensitive prefix test ([String.prototype.startsWith]). *)
Fixpoint starts_with (pre : jsstring) (l : jsstring) : bool :=
  match pre, l with
  | [], _ => true
  | a :: pre', c :: l' => N.eqb a c && starts_with pre' l'
  | _ :: _, [] => false
  end.

Definition char_at (s : jsstring) (i : nat) : option char := nth_error s i.

Definition substring (s : jsstring) (b e : nat) : jsstring :=
  firstn (e - b) (skipn b s).

(** Length of the longest prefix of non-whitespace code units
    (the greedy [[\S]*]). *)
Fixpoint nonws_len (l : jsstring) : nat :=
  match l with
  | [] => 0
  | c :: l' => if is_ws c then 0 else S (nonws_len l')
  end.

(** Greedy [[a-z0-9]*]. *)
Fixpoint alnum_len (l : jsstring) : nat :=
  match l with
  | [] => 0
  | c :: l' => if is_alnum c then S (alnum_len l') else 0
  end.

(** Greedy [(\.[a-z0-9]+)*]: length consumed.  [in_label] is true while
    the previous code unit belongs to a label after a dot, where a further
    alphanumeric unit extends the label. *)
Fixpoint labels_len (in_label : bool) (l : jsstring) : nat :=
  match l with
  | [] => 0
  | c :: l' =>
      if in_label && is_alnum c then S (labels_len true l')
      else if N.eqb c 46 then
        match l' with
        | d :: _ => if is_alnum d then S (labels_len true l') else 0
        | [] => 0
        end
      else 0
  end.

(** ** The match of the regular expression at one start index *)

Record regex_match := {
  m_index : nat;                 (** [match.index]: start of group 1 *)
  m_start : nat;                 (** start of group 2 *)
  m_end : nat;                   (** end of group 2 = end of the match *)
  m_domain : option jsstring     (** [match.groups.domain] *)
}.

Definition scheme_http : jsstring := js "http://".
Definition scheme_https : jsstring := js "https://".

(** Group 2 at index [j]: its end and the [domain] group.  The scheme
    alternative [https?:\/\/[\S]+] is tried first; [[\S]+] runs to the end
    of the non-whitespace run.  Otherwise the domain alternative: a letter,
    a greedy label, at least one [.label], then [[\S]*]. *)
Definition group2_at (s : jsstring) (j : nat) : option (nat * option jsstring) :=
  let l := skipn j s in
  let run := j + nonws_len l in
  if (ci_prefix scheme_https l && negb (Nat.eqb (nonws_len (skipn 8 l)) 0))
     || (ci_prefix scheme_http l && negb (Nat.eqb (nonws_len (skipn 7 l)) 0))
  then Some (run, None)
  else
    match l with
    | c :: l' =>
        if is_alpha c then
          let k := alnum_len l' in
          let d := labels_len false (skipn k l') in
          if Nat.eqb d 0 then None
          else Some (run, Some (firstn (S k + d) l))
        else None
    | [] => None
    end.

(** [^] in multiline mode. *)
Definition at_line_start (s : jsstring) (i : nat) : bool :=
  match i with
  | 0 => true
  | S i' => match char_at s i' with
            | Some c => is_line_terminator c
            | None => false
            end
  end.

(** Group 1 [(^|\s|\()], alternatives in order, each followed by group 2. *)
Definition match_at (s : jsstring) (i : nat) : option regex_match :=
  let try2 j :=
    match group2_at s j with
    | Some (e, d) => Some {| m_index := i; m_start := j; m_end := e; m_domain := d |}
    | None => None
    end in
  match (if at_line_start s i then try2 i else None) with
  | Some m => Some m
  | None =>
      match char_at s i with
      | Some c =>
          match (if is_ws c then try2 (S i) else None) with
          | Some m => Some m
          | None => if N.eqb c 40 then try2 (S i) else None
          end
      | None => None
      end
  end.

(** [RegExp.prototype.exec] with the [g] flag: the leftmost match at or
    after [lastIndex]. *)
Fixpoint search (s : jsstring) (i : nat) (n : nat) : option regex_match :=
  match match_at s i with
  | Some m => Some m
  | None => match n with
            | 0 => None
            | S n' => search s (S i) n'
            end
  end.

Definition exec (s : jsstring) (lastIndex : nat) : option regex_match :=
  if Nat.leb lastIndex (length s) then search s lastIndex (length s - lastIndex)
  else None.

(** [str.indexOf(search, position)]: the first index at or after
    [position] where [search] occurs, or [-1]. *)
Fixpoint find_from (l needle : jsstring) (k : nat) : option nat :=
  if starts_with needle l then Some k
  else match l with
       | [] => None
       | _ :: l' => find_from l' needle (S k)
       end.

Definition index_of (s needle : jsstring) (position : nat) : Z :=
  match find_from (skipn position s) needle position with
  | Some k => Z.of_nat k
  | None => (-1)%Z
  end.

Fixpoint last_char (l : jsstring) : option char :=
  match l with
  | [] => None
  | [c] => Some c
  | _ :: l' => last_char l'
  end.

(** [/[.,;!?]$/.test(uri)] *)
Definition ends_with_punct (uri : jsstring) : bool :=
  match last_char uri with
  | Some c => N.eqb c 46 || N.eqb c 44 || N.eqb c 59 || N.eqb c 33 || N.eqb c 63
  | None => false
  end.

(** [/[)]$/.test(uri)] *)
Definition ends_with_close_paren (uri : jsstring) : bool :=
  match last_char uri with
  | Some c => N.eqb c 41
  | None => false
  end.

(** [uri.includes('(')] *)
Definition includes_open_paren (uri : jsstring) : bool :=
  existsb (N.eqb 40) uri.

(** The local variables [from], [to] and [uri] of the loop body at the
    call [cb(from, to)]; [cb] itself only receives [from] and [to]. *)
Record candidate := { c_from : Z; c_to : Z; c_uri : jsstring }.

Section Scanner.

(** [isValidDomain] of [lib/strings/url-helpers]: an opaque predicate. *)
Variable isValidDomain : jsstring -> bool.

(** The two trimming steps ([uri.slice(0, -1)] drops the last unit). *)
Definition strip_punct (uri : jsstring) (to : Z) : jsstring * Z :=
  if ends_with_punct uri then (removelast uri, (to - 1)%Z) else (uri, to).

Definition strip_paren (uri : jsstring) (to : Z) : jsstring * Z :=
  if ends_with_close_paren uri && negb (includes_open_paren uri)
  then (removelast uri, (to - 1)%Z) else (uri, to).

(** Body of the [while] loop for one match: [None] is [continue]. *)
Definition loop_body (s : jsstring) (m : regex_match) : option candidate :=
  let g2 := substring s (m_start m) (m_end m) in
  let uri :=
    if starts_with (js "http") g2 then Some g2
    else match m_domain m with
         | Some domain =>
             if (match domain with [] => true | _ => false end)
                || negb (isValidDomain domain)
             then None
             else Some (js "https://" ++ g2)
         | None => None
         end in
  match uri with
  | None => None
  | Some uri =>
      let from := index_of s g2 (m_index m) in
      let to := (from + Z.of_nat (length g2) + 1)%Z in
      let '(uri, to) := strip_punct uri to in
      let '(uri, to) := strip_paren uri to in
      Some {| c_from := from; c_to := to; c_uri := uri |}
  end.

(** The [while ((match = re.exec(str)))] loop; [lastIndex] is the end of
    the previous match.  [fuel] bounds the iterations; [None] means it ran
    out. *)
Fixpoint scan_loop (fuel : nat) (s : jsstring) (lastIndex : nat)
  : option (list candidate) :=
  match fuel with
  | 0 => None
  | S fuel' =>
      match exec s lastIndex with
      | None => Some []
      | Some m =>
          match loop_body s m with
          | None => scan_loop fuel' s (m_end m)
          | Some c => option_map (cons c) (scan_loop fuel' s (m_end m))
          end
      end
  end.

(** The candidates in the order of the [cb] calls; the fuel
    [length str + 1] never runs out ([iterateUris_terminates]). *)
Definition scan (s : jsstring) : list candidate :=
  match scan_loop (S (length s)) s 0 with
  | Some cs => cs
  | None => []
  end.

(** [iterateUris(str, cb)]: the sequence of [cb(from, to)] calls. *)
Definition iterateUris (s : jsstring) : list (Z * Z) :=
  map (fun c => (c_from c, c_to c)) (scan s).

End Scanner.

(** ** Documents (ProseMirror nodes) *)

Set Warnings "-register-all".

(** A node: a text node with its marks, a leaf node (hard break, image)
    or an element node with its content. *)
Inductive node :=
| Text (marks : list string) (text : jsstring)
| Leaf (type_name : string)
| Elem (type_name : string) (content : list node).

(** Induction over nodes through their content lists. *)
Section NodeInd.
Variable P : node -> Prop.
Hypothesis HText : forall ms t, P (Text ms t).
Hypothesis HLeaf : forall ty, P (Leaf ty).
Hypothesis HElem : forall ty cs, Forall P cs -> P (Elem ty cs).

Fixpoint node_ind' (n : node) : P n :=
  match n with
  | Text ms t => HText ms t
  | Leaf ty => HLeaf ty
  | Elem ty cs =>
      HElem ty cs
        ((fix go (l : list node) : Forall P l :=
            match l with
            | [] => Forall_nil P
            | c :: l' => Forall_cons c (node_ind' c) (go l')
            end) cs)
  end.
End NodeInd.

Definition node_type_name (n : node) : string :=
  match n with
  | Text _ _ => "text"
  | Leaf ty => ty
  | Elem ty _ => ty
  end.

(** [node.nodeSize]: text length, 1 for a leaf, content size + 2. *)
Fixpoint node_size (n : node) : nat :=
  match n with
  | Text _ t => length t
  | Leaf _ => 1
  | Elem _ cs => S (S (fold_right (fun c acc => node_size c + acc) 0 cs))
  end.

(** [node.textContent]: [textBetween(0, content.size, "")]; leaves
    without [leafText] contribute nothing. *)
Fixpoint text_content (n : node) : jsstring :=
  match n with
  | Text _ t => t
  | Leaf _ => []
  | Elem _ cs => flat_map text_content cs
  end.

(** [node.descendants]: every node below, in document order, with its
    position; the content of a node at [pos] starts at [pos + 1]
    ([Fragment.nodesBetween]). *)
Fixpoint node_descendants (pos : nat) (n : node) : list (nat * node) :=
  (pos, n) ::
  match n with
  | Elem _ cs =>
      (fix go (p : nat) (l : list node) : list (nat * node) :=
         match l with
         | [] => []
         | c :: l' => node_descendants p c ++ go (p + node_size c) l'
         end) (S pos) cs
  | _ => []
  end.

Fixpoint content_descendants (p : nat) (l : list node) : list (nat * node) :=
  match l with
  | [] => []
  | c :: l' => node_descendants p c ++ content_descendants (p + node_size c) l'
  end.

Definition doc_content (doc : node) : list node :=
  match doc with
  | Elem _ cs => cs
  | _ => []
  end.

(** [findChildren(doc, predicate)] of @tiptap/core. *)
Definition findChildren (doc : node) (pred : node -> bool) : list (nat * node) :=
  filter (fun pn => pred (snd pn)) (content_descendants 0 (doc_content doc)).

(** ** Decorations *)

Record decoration := { d_from : Z; d_to : Z; d_class : string }.

(** A [DecorationSet], as the decorations it holds. *)
Definition decoration_set := list decoration.

Definition is_paragraph (n : node) : bool :=
  String.eqb (node_type_name n) "paragraph".

Section Decorations.

Variable isValidDomain : jsstring -> bool.

(** [getDecorations(doc)]: [Decoration.inline(pos + from, pos + to,
    {class: 'autolink'})] for every [cb(from, to)] of every paragraph. *)
Definition getDecorations (doc : node) : decoration_set :=
  flat_map
    (fun pn =>
       map (fun ft => {| d_from := (Z.of_nat (fst pn) + fst ft)%Z;
                         d_to := (Z.of_nat (fst pn) + snd ft)%Z;
                         d_class := "autolink" |})
           (iterateUris isValidDomain (text_content (snd pn))))
    (findChildren doc is_paragraph).

End Decorations.

(** ** Transactions and the plugin state *)

(** A step of a transaction: its effect on the document and its step map
    ([StepMap.map(pos, assoc)]). *)
Record step := { step_apply : node -> node; step_map : Z -> Z -> Z }.

Record transaction := { tr_before : node; tr_steps : list step }.

(** [transaction.doc] *)
Definition tr_doc (tr : transaction) : node :=
  fold_left (fun d st => step_apply st d) (tr_steps tr) (tr_before tr).

(** [transaction.docChanged]: [this.steps.length > 0]. *)
Definition docChanged (tr : transaction) : bool :=
  match tr_steps tr with [] => false | _ => true end.

(** [transaction.mapping]: the step maps in order. *)
Definition mapping := list (Z -> Z -> Z).

Definition tr_mapping (tr : transaction) : mapping := map step_map (tr_steps tr).

(** [Mapping.map(pos, assoc)] *)
Definition mapping_map (mp : mapping) (pos assoc : Z) : Z :=
  fold_left (fun p f => f p assoc) mp pos.

(** [InlineType.map] for a decoration made without [inclusiveStart] /
    [inclusiveEnd]: [from] maps with assoc 1, [to] with assoc -1, and the
    decoration disappears when [from >= to]. *)
Definition map_decoration (mp : mapping) (d : decoration) : option decoration :=
  let from := mapping_map mp (d_from d) 1 in
  let to := mapping_map mp (d_to d) (-1) in
  if (to <=? from)%Z then None
  else Some {| d_from := from; d_to := to; d_class := d_class d |}.

(** [DecorationSet.map(mapping, doc)]: unchanged for an empty mapping. *)
Definition decoration_set_map (mp : mapping) (ds : decoration_set) : decoration_set :=
  match mp with
  | [] => ds
  | _ => flat_map (fun d => match map_decoration mp d with
                            | Some d' => [d']
                            | None => []
                            end) ds
  end.

(** The editor state seen by the plugin: the document and the plugin's
    state field. *)
Record editor_state := { es_doc : node; es_decorations : decoration_set }.

Section Plugin.

Variable isValidDomain : jsstring -> bool.

(** [state.init: (_, {doc}) => getDecorations(doc)] *)
Definition linkDecorator_init (doc : node) : editor_state :=
  {| es_doc := doc; es_decorations := getDecorations isValidDomain doc |}.

(** [state.apply(transaction, decorationSet)] *)
Definition linkDecorator_apply (tr : transaction) (ds : decoration_set)
  : decoration_set :=
  if docChanged tr then getDecorations isValidDomain (tr_doc tr)
  else decoration_set_map (tr_mapping tr) ds.

End Plugin.

(** ** Auxiliary notions for the further properties *)



(** The editor dispatching transactions one after the other, each
    starting from the document the previous one produced, with the
    plugin's [apply] run on each: the final document and plugin state. *)
Fixpoint plugin_run (isValidDomain : jsstring -> bool) (doc : node)
  (ds : decoration_set) (trs : list (list step)) : node * decoration_set :=
  match trs with
  | [] => (doc, ds)
  | steps :: rest =>
      let tr := {| tr_before := doc; tr_steps := steps |} in
      plugin_run isValidDomain (tr_doc tr) (linkDecorator_apply isValidDomain tr ds) rest
  end.

(** * Properties of the scanner *)

(** ** Character classes *)

Lemma printable_not_ws (c : char) : (33 <= c <= 126)%N -> is_ws c = false.
Proof.
  intros H. unfold is_ws, is_line_terminator.
  repeat apply orb_false_intro;
    try (apply N.eqb_neq; lia).
  apply andb_false_intro1. apply N.leb_gt. lia.
Qed.

Lemma alnum_not_ws (c : char) : is_alnum c = true -> is_ws c = false.
Proof.
  unfold is_alnum, is_alpha, is_digit. intros H.
  apply printable_not_ws.
  repeat match goal with
         | H : (_ || _) = true |- _ => apply orb_true_iff in H; destruct H
         | H : (_ && _) = true |- _ => apply andb_true_iff in H; destruct H
         | H : N.leb _ _ = true |- _ => apply N.leb_le in H
         end; lia.
Qed.

Lemma alpha_alnum (c : char) : is_alpha c = true -> is_alnum c = true.
Proof. unfold is_alnum. intros ->. reflexivity. Qed.

Lemma alpha_range (c : char) : is_alpha c = true -> (65 <= c <= 122)%N.
Proof.
  unfold is_alpha. intros H.
  repeat match goal with
         | H : (_ || _) = true |- _ => apply orb_true_iff in H; destruct H
         | H : (_ && _) = true |- _ => apply andb_true_iff in H; destruct H
         | H : N.leb _ _ = true |- _ => apply N.leb_le in H
         end; lia.
Qed.

Lemma lt_is_ws (c : char) : is_line_terminator c = true -> is_ws c = true.
Proof. intros H. unfold is_ws. rewrite H. rewrite !orb_true_r. reflexivity. Qed.

Lemma ci_eq_not_ws (a c : char) :
  ci_eq a c = true -> (33 <= a <= 126)%N -> is_ws c = false.
Proof.
  unfold ci_eq. intros H Ha. apply printable_not_ws.
  repeat match goal with
         | H : (_ || _) = true |- _ => apply orb_true_iff in H; destruct H
         | H : (_ && _) = true |- _ => apply andb_true_iff in H; destruct H
         | H : N.leb _ _ = true |- _ => apply N.leb_le in H
         | H : N.eqb _ _ = true |- _ => apply N.eqb_eq in H
         end; lia.
Qed.

(** ** Runs of non-whitespace *)

Lemma nonws_len_le (l : jsstring) : nonws_len l <= length l.
Proof. induction l as [|c l IH]; simpl; [lia|]. destruct (is_ws c); simpl; lia. Qed.

Lemma nonws_len_skipn (n : nat) (l : jsstring) :
  n <= nonws_len l -> nonws_len l = n + nonws_len (skipn n l).
Proof.
  revert l. induction n as [|n IH]; intros l H; [reflexivity|].
  destruct l as [|c l]; simpl in *; [lia|].
  destruct (is_ws c); [lia|]. rewrite (IH l); lia.
Qed.

Lemma alnum_len_le_nonws (l : jsstring) : alnum_len l <= nonws_len l.
Proof.
  induction l as [|c l IH]; simpl; [lia|].
  destruct (is_alnum c) eqn:E; [|lia].
  rewrite (alnum_not_ws c E). lia.
Qed.

Lemma labels_len_le_nonws (b : bool) (l : jsstring) : labels_len b l <= nonws_len l.
Proof.
  revert b. induction l as [|c l IH]; intros b; simpl; [lia|].
  destruct (b && is_alnum c) eqn:E.
  - apply andb_true_iff in E as [_ E]. rewrite (alnum_not_ws c E).
    specialize (IH true). lia.
  - destruct (N.eqb_spec c 46); [|lia].
    subst c. rewrite printable_not_ws by lia.
    destruct l as [|d l']; [lia|].
    destruct (is_alnum d); [|lia].
    specialize (IH true). lia.
Qed.

Lemma labels_len_false_pos (l : jsstring) :
  labels_len false l <> 0 -> 2 <= labels_len false l.
Proof.
  destruct l as [|c l]; simpl; [lia|].
  destruct (N.eqb c 46); [|lia].
  destruct l as [|d l']; [lia|].
  destruct (is_alnum d) eqn:E; [|lia].
  simpl. rewrite E. lia.
Qed.

Lemma ci_prefix_nonws (lits l : jsstring) :
  ci_prefix lits l = true -> Forall (fun a => (33 <= a <= 126)%N) lits ->
  nonws_len l = length lits + nonws_len (skipn (length lits) l).
Proof.
  revert l. induction lits as [|a lits IH]; intros l H Hf; [reflexivity|].
  destruct l as [|c l]; simpl in H; [discriminate|].
  apply andb_true_iff in H as [Hc H]. inversion Hf; subst.
  simpl. rewrite (ci_eq_not_ws a c Hc) by assumption.
  rewrite (IH l H) by assumption. reflexivity.
Qed.

Lemma ci_prefix_head (a : char) (lits l : jsstring) :
  ci_prefix (a :: lits) l = true ->
  exists c rest, l = c :: rest /\ ci_eq a c = true.
Proof.
  destruct l as [|c rest]; simpl; [discriminate|].
  intros H. apply andb_true_iff in H as [H _]. eauto.
Qed.

Lemma ci_eq_h_alpha (c : char) : ci_eq 104%N c = true -> is_alpha c = true.
Proof.
  unfold ci_eq. simpl.
  intros H. apply orb_true_iff in H as [H|H]; apply N.eqb_eq in H; subst; reflexivity.
Qed.

(** Group 2 spans the whole non-whitespace run from its start, is at least
    three code units long and starts with a letter. *)
Lemma group2_at_spec (s : jsstring) (j e : nat) (d : option jsstring) :
  group2_at s j = Some (e, d) ->
  e = j + nonws_len (skipn j s) /\ 3 <= nonws_len (skipn j s) /\
  exists c rest, skipn j s = c :: rest /\ is_alpha c = true.
Proof.
  unfold group2_at. set (l := skipn j s).
  destruct (ci_prefix scheme_https l && negb (Nat.eqb (nonws_len (skipn 8 l)) 0)) eqn:E1.
  - intros H. inversion H; subst. split; [reflexivity|].
    apply andb_true_iff in E1 as [Hp Hn].
    apply negb_true_iff, Nat.eqb_neq in Hn.
    rewrite (ci_prefix_nonws _ _ Hp) by (repeat constructor; simpl; lia).
    split; [simpl; lia|].
    destruct (ci_prefix_head _ _ _ Hp) as (c & rest & Hl & Hc).
    exists c, rest. split; [exact Hl|]. apply ci_eq_h_alpha, Hc.
  - rewrite orb_false_l.
    destruct (ci_prefix scheme_http l && negb (Nat.eqb (nonws_len (skipn 7 l)) 0)) eqn:E2.
    + intros H. inversion H; subst. split; [reflexivity|].
      apply andb_true_iff in E2 as [Hp Hn].
      apply negb_true_iff, Nat.eqb_neq in Hn.
      rewrite (ci_prefix_nonws _ _ Hp) by (repeat constructor; simpl; lia).
      split; [simpl; lia|].
      destruct (ci_prefix_head _ _ _ Hp) as (c & rest & Hl & Hc).
      exists c, rest. split; [exact Hl|]. apply ci_eq_h_alpha, Hc.
    + destruct l as [|c l'] eqn:El; [discriminate|].
      destruct (is_alpha c) eqn:Ea; [|discriminate].
      destruct (Nat.eqb_spec (labels_len false (skipn (alnum_len l') l')) 0)
        as [Hd|Hd]; [discriminate|].
      intros H. inversion H; subst. split; [reflexivity|].
      split; [|eauto].
      simpl. rewrite (printable_not_ws c) by (pose proof (alpha_range c Ea); lia).
      pose proof (alnum_len_le_nonws l') as H1.
      rewrite (nonws_len_skipn (alnum_len l') l' H1).
      pose proof (labels_len_le_nonws false (skipn (alnum_len l') l')).
      pose proof (labels_len_false_pos _ Hd). lia.
Qed.

(** ** The match returned by [exec] *)

(** Group 1 matched [^] (group 2 starts at [match.index]) or one
    whitespace unit or ['('] (group 2 starts one unit later). *)
Definition group1_ok (s : jsstring) (m : regex_match) : Prop :=
  (m_start m = m_index m /\ at_line_start s (m_index m) = true) \/
  (m_start m = S (m_index m) /\
   exists c, char_at s (m_index m) = Some c /\ (is_ws c = true \/ c = 40%N)).

Lemma match_at_spec (s : jsstring) (i : nat) (m : regex_match) :
  match_at s i = Some m ->
  m_index m = i /\ group1_ok s m /\
  group2_at s (m_start m) = Some (m_end m, m_domain m).
Proof.
  unfold match_at, group1_ok.
  destruct (group2_at s i) as [[e d]|] eqn:G0;
  destruct (group2_at s (S i)) as [[e1 d1]|] eqn:G1;
  destruct (at_line_start s i) eqn:Hl;
  destruct (char_at s i) as [c|] eqn:Hc;
  try destruct (is_ws c) eqn:Hw; try destruct (N.eqb_spec c 40);
  intros H; try discriminate; inversion H; subst; simpl;
  (split; [reflexivity|]);
  first [ split; [left; split; [reflexivity|assumption]|assumption]
        | split; [right; split; [reflexivity|eexists; split; [eassumption|auto]]|assumption] ].
Qed.

Lemma search_spec (s : jsstring) (n i : nat) (m : regex_match) :
  search s i n = Some m -> exists i', i <= i' /\ match_at s i' = Some m.
Proof.
  revert i. induction n as [|n IH]; intros i; simpl;
    destruct (match_at s i) as [m'|] eqn:Hm.
  - intros H. inversion H; subst. eauto.
  - discriminate.
  - intros H. inversion H; subst. eauto.
  - intros H. destruct (IH (S i) H) as (i' & Hle & Hi'). exists i'. split; [lia|exact Hi'].
Qed.

Lemma exec_spec (s : jsstring) (last : nat) (m : regex_match) :
  exec s last = Some m ->
  last <= m_index m /\ group1_ok s m /\
  group2_at s (m_start m) = Some (m_end m, m_domain m).
Proof.
  unfold exec. destruct (Nat.leb last (length s)); [|discriminate].
  intros H. destruct (search_spec _ _ _ _ H) as (i & Hle & Hi).
  destruct (match_at_spec _ _ _ Hi) as (-> & H1 & H2). auto.
Qed.

Lemma nonws_len_nth (l : jsstring) (n : nat) :
  n < nonws_len l -> exists c, nth_error l n = Some c /\ is_ws c = false.
Proof.
  revert n. induction l as [|c l IH]; intros n; simpl; [lia|].
  destruct (is_ws c) eqn:Hw; [lia|].
  destruct n as [|n]; simpl; [eauto|]. intros H. apply IH. lia.
Qed.

Lemma nth_error_skipn' (l : jsstring) (j n : nat) :
  nth_error (skipn j l) n = nth_error l (j + n).
Proof.
  revert l. induction j as [|j IH]; intros l; [reflexivity|].
  destruct l as [|c l]; simpl; [destruct n; reflexivity|]. apply IH.
Qed.

Lemma skipn_cons_nth (l : jsstring) (i : nat) (c : char) :
  nth_error l i = Some c -> skipn i l = c :: skipn (S i) l.
Proof.
  revert l. induction i as [|i IH]; intros l; destruct l as [|d l]; simpl;
    try discriminate.
  - intros H. inversion H; reflexivity.
  - apply IH.
Qed.

(** The facts about one match used below. *)
Lemma exec_match_facts (s : jsstring) (last : nat) (m : regex_match) :
  exec s last = Some m ->
  m_end m = m_start m + nonws_len (skipn (m_start m) s) /\
  m_start m + 3 <= m_end m /\ m_end m <= length s /\
  (exists c rest, skipn (m_start m) s = c :: rest /\ is_alpha c = true) /\
  (exists c, char_at s (m_end m - 1) = Some c /\ is_ws c = false).
Proof.
  intros H. destruct (exec_spec _ _ _ H) as (_ & _ & G).
  destruct (group2_at_spec _ _ _ _ G) as (He & H3 & Ha).
  pose proof (nonws_len_le (skipn (m_start m) s)) as Hle.
  rewrite length_skipn in Hle.
  destruct (nonws_len_nth (skipn (m_start m) s) (nonws_len (skipn (m_start m) s) - 1))
    as (c & Hc & Hw); [lia|].
  rewrite nth_error_skipn' in Hc.
  repeat split; try lia; [exact Ha|].
  exists c. split; [|exact Hw]. unfold char_at.
  replace (m_end m - 1) with (m_start m + (nonws_len (skipn (m_start m) s) - 1)) by lia.
  exact Hc.
Qed.

(** ** [str.indexOf(match[2], match.index)] finds group 2 *)

Lemma starts_with_firstn (n : nat) (l : jsstring) : starts_with (firstn n l) l = true.
Proof.
  revert l. induction n as [|n IH]; intros l; [reflexivity|].
  destruct l as [|c l]; [reflexivity|]. simpl. rewrite N.eqb_refl. apply IH.
Qed.

Lemma find_from_unfold (l needle : jsstring) (k : nat) :
  find_from l needle k =
  if starts_with needle l then Some k
  else match l with [] => None | _ :: l' => find_from l' needle (S k) end.
Proof. destruct l; reflexivity. Qed.

Lemma find_from_prefix (l : jsstring) (n k : nat) : find_from l (firstn n l) k = Some k.
Proof. rewrite find_from_unfold, starts_with_firstn. reflexivity. Qed.

Lemma index_of_group2 (s : jsstring) (last : nat) (m : regex_match) :
  exec s last = Some m ->
  index_of s (substring s (m_start m) (m_end m)) (m_index m) = Z.of_nat (m_start m).
Proof.
  intros H. destruct (exec_spec _ _ _ H) as (_ & G1 & _).
  destruct (exec_match_facts _ _ _ H) as (_ & H3 & _ & (c & rest & Hsk & Ha) & _).
  unfold index_of, substring.
  destruct G1 as [[Hj _] | [Hj (c0 & Hc0 & Hw)]].
  - rewrite <- Hj, find_from_prefix. reflexivity.
  - set (g := firstn (m_end m - m_start m) (skipn (m_start m) s)).
    assert (Hg : starts_with g (c0 :: skipn (S (m_index m)) s) = false).
    { subst g. rewrite Hsk.
      replace (m_end m - m_start m) with (S (m_end m - m_start m - 1)) by lia.
      simpl. replace (N.eqb c c0) with false; [reflexivity|].
      symmetry. apply N.eqb_neq. intros ->.
      pose proof (alpha_range c0 Ha).
      destruct Hw as [Hw | ->]; [|lia].
      rewrite printable_not_ws in Hw by lia. discriminate. }
    rewrite (skipn_cons_nth s (m_index m) c0 Hc0), find_from_unfold, Hg.
    cbn beta iota. subst g. rewrite <- Hj, find_from_prefix. reflexivity.
Qed.

(** ** One iteration of the loop *)

Lemma strip_punct_to (u : jsstring) (t : Z) :
  snd (strip_punct u t) = t \/ snd (strip_punct u t) = (t - 1)%Z.
Proof. unfold strip_punct. destruct (ends_with_punct u); simpl; auto. Qed.

Lemma strip_paren_to (u : jsstring) (t : Z) :
  snd (strip_paren u t) = t \/ snd (strip_paren u t) = (t - 1)%Z.
Proof.
  unfold strip_paren.
  destruct (ends_with_close_paren u && negb (includes_open_paren u)); simpl; auto.
Qed.

Section LoopBody.

Variable isValidDomain : jsstring -> bool.

(** An emitted candidate: [uri] starts as group 2 or as ["https://"]
    followed by group 2, [from] is [indexOf], [to] is
    [from + match[2].length + 1], then both trimming steps run. *)
Lemma loop_body_shape (s : jsstring) (m : regex_match) (c : candidate) :
  loop_body isValidDomain s m = Some c ->
  let g2 := substring s (m_start m) (m_end m) in
  let from := index_of s g2 (m_index m) in
  exists uri0,
    (uri0 = g2 /\ starts_with (js "http") g2 = true \/
     uri0 = js "https://" ++ g2 /\ starts_with (js "http") g2 = false /\
     exists domain, m_domain m = Some domain /\ domain <> [] /\
                    isValidDomain domain = true) /\
    c_from c = from /\
    (c_uri c, c_to c) =
      (let '(u1, t1) := strip_punct uri0 (from + Z.of_nat (length g2) + 1)%Z in
       strip_paren u1 t1).
Proof.
  unfold loop_body. cbv zeta.
  set (g2 := substring s (m_start m) (m_end m)).
  destruct (starts_with (js "http") g2) eqn:Hh.
  - destruct (strip_punct g2 _) as [u1 t1] eqn:S1.
    destruct (strip_paren u1 t1) as [u2 t2] eqn:S2.
    intros H. inversion H; subst; clear H. simpl.
    exists g2. split; [left; auto|]. rewrite S1, S2. auto.
  - destruct (m_domain m) as [domain|] eqn:Hd; [|discriminate].
    destruct domain as [|a domain']; [discriminate|].
    destruct (isValidDomain (a :: domain')) eqn:Hv; [|discriminate].
    cbn [orb negb].
    match goal with
    | |- context [strip_punct ?u ?t] => destruct (strip_punct u t) as [u1 t1] eqn:S1
    end.
    destruct (strip_paren u1 t1) as [u2 t2] eqn:S2.
    intros H. inversion H; subst; clear H. simpl.
    exists (js "https://" ++ g2). split.
    + right. split; [reflexivity|]. split; [reflexivity|].
      exists (a :: domain'). split; [reflexivity|]. split; [discriminate|exact Hv].
    + rewrite S1, S2. auto.
Qed.

Lemma loop_body_spec (s : jsstring) (last : nat) (m : regex_match) (c : candidate) :
  exec s last = Some m -> loop_body isValidDomain s m = Some c ->
  c_from c = Z.of_nat (m_start m) /\
  (Z.of_nat (m_end m) - 1 <= c_to c <= Z.of_nat (m_end m) + 1)%Z.
Proof.
  intros He Hb.
  destruct (loop_body_shape s m c Hb) as (uri0 & _ & Hf & Hut).
  rewrite (index_of_group2 s last m He) in Hf, Hut.
  destruct (exec_match_facts _ _ _ He) as (_ & H3 & Hle & _).
  assert (Hlen : length (substring s (m_start m) (m_end m)) = m_end m - m_start m).
  { unfold substring. rewrite length_firstn, length_skipn. lia. }
  rewrite Hlen in Hut.
  destruct (strip_punct uri0 _) as [u1 t1] eqn:S1.
  pose proof (strip_punct_to uri0 (Z.of_nat (m_start m) + Z.of_nat (m_end m - m_start m) + 1))
    as P1.
  rewrite S1 in P1. simpl in P1.
  pose proof (strip_paren_to u1 t1) as P2. rewrite <- Hut in P2. simpl in P2.
  split; [exact Hf|].
  destruct P1 as [-> | ->]; destruct P2 as [-> | ->]; lia.
Qed.

End LoopBody.

(** ** The loop *)

(** The unit before [lastIndex] is not whitespace (or [lastIndex = 0]):
    true at the start and after every match, whose group 2 ends inside a
    non-whitespace run. *)
Definition prev_nonws (s : jsstring) (last : nat) : Prop :=
  last = 0 \/ exists c, char_at s (last - 1) = Some c /\ is_ws c = false.

Lemma exec_start_after (s : jsstring) (last : nat) (m : regex_match) :
  exec s last = Some m -> prev_nonws s last ->
  last <= m_start m /\ (last = 0 \/ last < m_start m).
Proof.
  intros H Hp. destruct (exec_spec _ _ _ H) as (Hle & G1 & _).
  destruct G1 as [[Hj Hl] | [Hj _]]; [|lia].
  destruct (Nat.eq_dec last (m_index m)) as [Heq|Hne]; [|lia].
  destruct Hp as [Hp | (c & Hc & Hw)]; [lia|].
  destruct last as [|l']; [lia|].
  exfalso. rewrite <- Heq in Hl. simpl in Hl. replace (S l' - 1) with l' in Hc by lia. rewrite Hc in Hl.
  rewrite (lt_is_ws c Hl) in Hw. discriminate.
Qed.

Lemma exec_end_prev_nonws (s : jsstring) (last : nat) (m : regex_match) :
  exec s last = Some m -> prev_nonws s (m_end m).
Proof.
  intros H. destruct (exec_match_facts _ _ _ H) as (_ & _ & _ & _ & Hc). right. exact Hc.
Qed.

(** Consecutive candidates do not overlap. *)
Fixpoint chain (l : list candidate) : Prop :=
  match l with
  | c1 :: rest =>
      match rest with
      | c2 :: _ => (c_to c1 <= c_from c2)%Z /\ chain rest
      | [] => True
      end
  | [] => True
  end.

Section Loop.

Variable isValidDomain : jsstring -> bool.

Lemma scan_loop_inv (fuel : nat) (s : jsstring) (last : nat) (cs : list candidate) :
  scan_loop isValidDomain fuel s last = Some cs -> prev_nonws s last ->
  Forall (fun c => exists l m, exec s l = Some m /\
                               loop_body isValidDomain s m = Some c) cs /\
  Forall (fun c => last = 0 \/ (Z.of_nat last < c_from c)%Z) cs /\
  chain cs.
Proof.
  revert last cs. induction fuel as [|fuel IH]; intros last cs H Hp;
    simpl in H; [discriminate|].
  destruct (exec s last) as [m|] eqn:He.
  2:{ inversion H; subst. repeat constructor. }
  pose proof (exec_start_after _ _ _ He Hp) as Hst.
  pose proof (exec_match_facts _ _ _ He) as (_ & H3 & _).
  assert (Hrest : forall rest, scan_loop isValidDomain fuel s (m_end m) = Some rest ->
            Forall (fun c => exists l m, exec s l = Some m /\
                               loop_body isValidDomain s m = Some c) rest /\
            Forall (fun c => (Z.of_nat (m_end m) < c_from c)%Z) rest /\ chain rest).
  { intros rest Hr. destruct (IH _ _ Hr (exec_end_prev_nonws _ _ _ He)) as (A & B & C).
    split; [exact A|]. split; [|exact C].
    eapply Forall_impl; [|exact B]. intros c [Hc|Hc]; [lia|exact Hc]. }
  destruct (loop_body isValidDomain s m) as [c|] eqn:Hb.
  - destruct (scan_loop isValidDomain fuel s (m_end m)) as [rest|] eqn:Hr;
      simpl in H; [|discriminate].
    inversion H; subst cs.
    destruct (Hrest rest eq_refl) as (A & B & C).
    destruct (loop_body_spec isValidDomain s last m c He Hb) as (Hf & Ht).
    split; [constructor; [eauto|exact A]|].
    split.
    + constructor.
      * destruct Hst as [_ [Hz|Hlt]]; [left; exact Hz|right; lia].
      * eapply Forall_impl; [|exact B]. intros c' Hc'. simpl in Hc'.
        destruct (Nat.eq_dec last 0); [left; assumption|right; lia].
    + simpl. destruct rest as [|c2 rest']; [exact I|].
      split; [|exact C]. inversion B; subst. lia.
  - destruct (Hrest cs H) as (A & B & C).
    split; [exact A|]. split; [|exact C].
    eapply Forall_impl; [|exact B]. intros c' Hc'. simpl in Hc'.
    destruct (Nat.eq_dec last 0); [left; assumption|right; lia].
Qed.

(** Every emitted candidate comes from one match of [exec]. *)
Lemma scan_origin (s : jsstring) (c : candidate) :
  In c (scan isValidDomain s) ->
  exists l m, exec s l = Some m /\ loop_body isValidDomain s m = Some c.
Proof.
  unfold scan. destruct (scan_loop isValidDomain (S (length s)) s 0) as [cs|] eqn:H;
    [|intros []].
  intros Hin. destruct (scan_loop_inv _ _ _ _ H (or_introl eq_refl)) as (A & _ & _).
  rewrite Forall_forall in A. apply A, Hin.
Qed.

Lemma scan_chain (s : jsstring) : chain (scan isValidDomain s).
Proof.
  unfold scan. destruct (scan_loop isValidDomain (S (length s)) s 0) as [cs|] eqn:H;
    [|exact I].
  apply (scan_loop_inv _ _ _ _ H (or_introl eq_refl)).
Qed.

End Loop.

(** ** Termination of the loop *)

Section Termination.

Variable isValidDomain : jsstring -> bool.

Lemma exec_progress (s : jsstring) (last : nat) (m : regex_match) :
  exec s last = Some m ->
  last < m_end m <= length s /\ 3 <= m_end m - m_start m.
Proof.
  intros H. destruct (exec_spec _ _ _ H) as (Hle & G1 & _).
  destruct (exec_match_facts _ _ _ H) as (_ & H3 & Hl & _).
  assert (m_index m <= m_start m) by (destruct G1 as [[-> _]|[-> _]]; lia).
  lia.
Qed.

Lemma scan_loop_enough_fuel (s : jsstring) (fuel last : nat) :
  length s - last < fuel -> exists cs, scan_loop isValidDomain fuel s last = Some cs.
Proof.
  revert last. induction fuel as [|fuel IH]; intros last Hf; [lia|].
  simpl. destruct (exec s last) as [m|] eqn:He; [|eauto].
  destruct (exec_progress _ _ _ He) as (Hp & _).
  destruct (IH (m_end m)) as (rest & Hr); [lia|].
  rewrite Hr. destruct (loop_body isValidDomain s m); simpl; eauto.
Qed.

Lemma scan_loop_S (s : jsstring) (fuel last : nat) :
  scan_loop isValidDomain (S fuel) s last =
  match exec s last with
  | None => Some []
  | Some m =>
      match loop_body isValidDomain s m with
      | None => scan_loop isValidDomain fuel s (m_end m)
      | Some c => option_map (cons c) (scan_loop isValidDomain fuel s (m_end m))
      end
  end.
Proof. reflexivity. Qed.

Lemma scan_loop_more_fuel (s : jsstring) (fuel last : nat) (cs : list candidate) :
  scan_loop isValidDomain fuel s last = Some cs ->
  scan_loop isValidDomain (S fuel) s last = Some cs.
Proof.
  revert last cs. induction fuel as [|fuel IH]; intros last cs H; [discriminate|].
  rewrite scan_loop_S in H |- *.
  destruct (exec s last) as [m|]; [|exact H].
  destruct (scan_loop isValidDomain fuel s (m_end m)) as [rest|] eqn:Hr.
  - rewrite (IH _ _ Hr). exact H.
  - destruct (loop_body isValidDomain s m); simpl in H; discriminate.
Qed.

Lemma scan_loop_fuel_irrelevant (s : jsstring) (fuel : nat) :
  length s < fuel ->
  scan_loop isValidDomain fuel s 0 = Some (scan isValidDomain s).
Proof.
  intros Hf. unfold scan.
  destruct (scan_loop_enough_fuel s (S (length s)) 0) as (cs & Hcs); [lia|].
  rewrite Hcs.
  induction fuel as [|fuel IH]; [lia|].
  destruct (Nat.eq_dec fuel (length s)) as [->|Hne]; [exact Hcs|].
  apply scan_loop_more_fuel, IH. lia.
Qed.

End Termination.

(** ** Ordered, non-overlapping candidates *)

Lemma chain_head (c : candidate) (rest : list candidate) :
  chain (c :: rest) -> Forall (fun b => (c_from b < c_to b)%Z) rest ->
  Forall (fun b => (c_to c <= c_from b)%Z) rest.
Proof.
  revert c. induction rest as [|c2 rest IH]; intros c Hc Hlt; [constructor|].
  simpl in Hc. destruct Hc as [H12 Hc2]. inversion Hlt; subst.
  constructor; [exact H12|].
  eapply Forall_impl; [|exact (IH c2 Hc2 H2)]. simpl. intros b Hb. lia.
Qed.

Lemma chain_tail (c : candidate) (rest : list candidate) :
  chain (c :: rest) -> chain rest.
Proof. destruct rest as [|c2 rest]; simpl; [trivial|]. intros [_ H]. exact H. Qed.

Lemma chain_nth (l : list candidate) :
  chain l -> Forall (fun b => (c_from b < c_to b)%Z) l ->
  forall i k a b, i < k -> nth_error l i = Some a -> nth_error l k = Some b ->
  (c_from a < c_from b)%Z /\ (c_to a <= c_from b)%Z.
Proof.
  induction l as [|c rest IH]; intros Hc Hlt i k a b Hik Ha Hb;
    [destruct i; discriminate|].
  inversion Hlt; subst.
  destruct k as [|k]; [lia|]. simpl in Hb.
  destruct i as [|i].
  - simpl in Ha. inversion Ha; subst a.
    pose proof (chain_head c rest Hc H2) as Hh. rewrite Forall_forall in Hh.
    apply nth_error_In in Hb. specialize (Hh b Hb). lia.
  - simpl in Ha. apply (IH (chain_tail c rest Hc) H2 i k); [lia|exact Ha|exact Hb].
Qed.

Section CandidateFacts.

Variable isValidDomain : jsstring -> bool.

Lemma scan_from_lt_to (s : jsstring) (c : candidate) :
  In c (scan isValidDomain s) -> (c_from c < c_to c)%Z.
Proof.
  intros Hin. destruct (scan_origin isValidDomain s c Hin) as (l & m & He & Hb).
  destruct (loop_body_spec isValidDomain s l m c He Hb) as (Hf & Ht).
  destruct (exec_progress _ _ _ He) as (_ & H3). lia.
Qed.

Lemma in_iterateUris (s : jsstring) (from to : Z) :
  In (from, to) (iterateUris isValidDomain s) ->
  exists c, In c (scan isValidDomain s) /\ c_from c = from /\ c_to c = to.
Proof.
  unfold iterateUris. rewrite in_map_iff. intros (c & Hc & Hin).
  inversion Hc. eauto.
Qed.

End CandidateFacts.

(** * Claims about the scanner *)

(** C1 (code_bug): [to] is [from + match[2].length + 1], one past the end
    of the matched text; for a link at the end of the string it exceeds
    the string's length: on ["http://a"] (length 8) [cb(0, 9)] is called. *)
Theorem iterateUris_to_exceeds_length (isValidDomain : jsstring -> bool) :
  iterateUris isValidDomain (js "http://a") = [(0%Z, 9%Z)] /\
  length (js "http://a") = 8.
Proof. split; reflexivity. Qed.

(** C3: the spans reach [cb] in strictly increasing order of [from], and
    an earlier span ends at or before the start of any later one, so no
    two spans overlap. *)
Theorem iterateUris_ordered_disjoint (isValidDomain : jsstring -> bool)
  (s : jsstring) (i k : nat) (a b : Z * Z) :
  i < k ->
  nth_error (iterateUris isValidDomain s) i = Some a ->
  nth_error (iterateUris isValidDomain s) k = Some b ->
  (fst a < fst b)%Z /\ (snd a <= fst b)%Z.
Proof.
  intros Hik Ha Hb. unfold iterateUris in Ha, Hb.
  destruct (nth_error (scan isValidDomain s) i) as [ca|] eqn:Hca;
    [|rewrite nth_error_map, Hca in Ha; discriminate].
  destruct (nth_error (scan isValidDomain s) k) as [cb|] eqn:Hcb;
    [|rewrite nth_error_map, Hcb in Hb; discriminate].
  rewrite nth_error_map, Hca in Ha. rewrite nth_error_map, Hcb in Hb.
  inversion Ha; inversion Hb; subst; simpl.
  apply (chain_nth (scan isValidDomain s) (scan_chain isValidDomain s)) with (i := i) (k := k);
    try assumption.
  apply Forall_forall. intros c Hc. apply (scan_from_lt_to isValidDomain s c Hc).
Qed.

Lemma iterateUris_ordered_disjoint_witness :
  (0 < 1 /\
   nth_error (iterateUris (fun _ => true) (js "a.b c.d")) 0 = Some (0%Z, 4%Z) /\
   nth_error (iterateUris (fun _ => true) (js "a.b c.d")) 1 = Some (4%Z, 8%Z)) /\
  (0 < 4 /\ 4 <= 4)%Z.
Proof.
  split; [split; [lia | split; vm_compute; reflexivity]|].
  apply (iterateUris_ordered_disjoint (fun _ => true) (js "a.b c.d") 0 1
           (0%Z, 4%Z) (4%Z, 8%Z)); [lia | vm_compute; reflexivity | vm_compute; reflexivity].
Defined.

(** C7: every emitted span is non-empty, also after both trimming steps:
    group 2 is at least three code units long. *)
Theorem iterateUris_from_lt_to (isValidDomain : jsstring -> bool) (s : jsstring)
  (from to : Z) :
  In (from, to) (iterateUris isValidDomain s) -> (from < to)%Z.
Proof.
  intros Hin. destruct (in_iterateUris isValidDomain s from to Hin) as (c & Hc & <- & <-).
  apply (scan_from_lt_to isValidDomain s c Hc).
Qed.

Lemma iterateUris_from_lt_to_witness :
  In (6%Z, 18%Z) (iterateUris (fun _ => true) (js "visit example.com now")) /\
  (6 < 18)%Z.
Proof.
  split; [vm_compute; auto|].
  apply (iterateUris_from_lt_to (fun _ => true) (js "visit example.com now")).
  vm_compute. auto.
Defined.

(** C8: every span starts at the beginning of the string or right after
    a whitespace code unit or an opening parenthesis. *)
Theorem iterateUris_preceded (isValidDomain : jsstring -> bool) (s : jsstring)
  (from to : Z) :
  In (from, to) (iterateUris isValidDomain s) ->
  from = 0%Z \/
  exists n c, from = Z.of_nat (S n) /\ char_at s n = Some c /\
              (is_ws c = true \/ c = 40%N).
Proof.
  intros Hin. destruct (in_iterateUris isValidDomain s from to Hin) as (c & Hc & <- & _).
  destruct (scan_origin isValidDomain s c Hc) as (l & m & He & Hb).
  destruct (loop_body_spec isValidDomain s l m c He Hb) as (-> & _).
  destruct (exec_spec _ _ _ He) as (_ & G1 & _).
  destruct G1 as [[-> Hl] | [-> (c0 & Hc0 & Hw)]].
  - destruct (m_index m) as [|n] eqn:Hi; [left; reflexivity|].
    right. simpl in Hl. destruct (char_at s n) as [c0|] eqn:Hc0; [|discriminate].
    exists n, c0. split; [reflexivity|]. split; [exact Hc0|].
    left. apply lt_is_ws, Hl.
  - right. exists (m_index m), c0. auto.
Qed.

Lemma iterateUris_preceded_witness :
  In (1%Z, 13%Z) (iterateUris (fun _ => true) (js "(example.com)")) /\
  (1%Z = 0%Z \/
   exists n c, 1%Z = Z.of_nat (S n) /\ char_at (js "(example.com)") n = Some c /\
               (is_ws c = true \/ c = 40%N)).
Proof.
  split; [vm_compute; auto|].
  apply (iterateUris_preceded (fun _ => true) (js "(example.com)") 1%Z 13%Z).
  vm_compute. auto.
Defined.

(** C10: every match consumed by the loop is at least three code units
    long and ends after the previous [lastIndex] and within the string, so
    the loop ends within [length str + 1] calls of [exec]; any larger bound
    gives the same result. *)
Theorem iterateUris_terminates (isValidDomain : jsstring -> bool) (s : jsstring) :
  (forall last m, exec s last = Some m ->
     last < m_end m <= length s /\ 3 <= m_end m - m_start m) /\
  scan_loop isValidDomain (S (length s)) s 0 = Some (scan isValidDomain s) /\
  (forall fuel, length s < fuel ->
     scan_loop isValidDomain fuel s 0 = Some (scan isValidDomain s)).
Proof.
  split; [apply exec_progress|].
  split; [apply scan_loop_fuel_irrelevant; lia|].
  apply scan_loop_fuel_irrelevant.
Qed.

(** ** Boundary trimming, as the specification words it *)

Definition trailing_punctuation : jsstring := js ".,;!?".

Definition drop_last_char (u : jsstring) : jsstring := rev (tl (rev u)).

(** Step 1: a last character among [. , ; ! ?] is stripped and [to]
    shrinks by one.  Step 2, on the result: a last [)] is stripped, and
    [to] shrinks by one, when the candidate contains no [(]. *)
Definition spec_trim (uri : jsstring) (to : Z) : jsstring * Z :=
  let '(u1, t1) :=
    match rev uri with
    | c :: _ =>
        if existsb (N.eqb c) trailing_punctuation
        then (drop_last_char uri, (to - 1)%Z) else (uri, to)
    | [] => (uri, to)
    end in
  match rev u1 with
  | c :: _ =>
      if N.eqb c 41 && negb (existsb (N.eqb 40) u1)
      then (drop_last_char u1, (t1 - 1)%Z) else (u1, t1)
  | [] => (u1, t1)
  end.

Lemma last_char_app (l : jsstring) (x : char) : last_char (l ++ [x]) = Some x.
Proof.
  induction l as [|a l IH]; [reflexivity|].
  simpl. destruct (l ++ [x]) eqn:E; [destruct l; discriminate|]. exact IH.
Qed.

Lemma removelast_app_single (l : jsstring) (x : char) : removelast (l ++ [x]) = l.
Proof.
  induction l as [|a l IH]; [reflexivity|].
  simpl. destruct (l ++ [x]) eqn:E; [destruct l; discriminate|]. rewrite IH. reflexivity.
Qed.

Lemma last_char_rev (u : jsstring) :
  last_char u = hd_error (rev u) /\ removelast u = drop_last_char u.
Proof.
  induction u as [|x u _] using rev_ind; [split; reflexivity|].
  unfold drop_last_char. rewrite rev_app_distr. simpl.
  rewrite last_char_app, removelast_app_single, rev_involutive. split; reflexivity.
Qed.

Lemma strip_paren_rev (u : jsstring) (t : Z) :
  strip_paren u t =
  match rev u with
  | c :: _ => if N.eqb c 41 && negb (existsb (N.eqb 40) u)
              then (drop_last_char u, (t - 1)%Z) else (u, t)
  | [] => (u, t)
  end.
Proof.
  unfold strip_paren, ends_with_close_paren, includes_open_paren.
  destruct (last_char_rev u) as [Hl Hr]. rewrite Hl, Hr.
  destruct (rev u); reflexivity.
Qed.

Lemma code_trim_is_spec_trim (u : jsstring) (t : Z) :
  (let '(u1, t1) := strip_punct u t in strip_paren u1 t1) = spec_trim u t.
Proof.
  unfold spec_trim, strip_punct, ends_with_punct.
  destruct (last_char_rev u) as [Hl Hr]. rewrite Hl.
  destruct (rev u) as [|c r] eqn:Hu.
  - apply (f_equal (@rev char)) in Hu. rewrite rev_involutive in Hu.
    subst u. reflexivity.
  - simpl hd_error. cbv iota beta.
    unfold trailing_punctuation. simpl existsb. rewrite orb_false_r.
    destruct (N.eqb c 46), (N.eqb c 44), (N.eqb c 59), (N.eqb c 33), (N.eqb c 63);
      cbn [orb]; rewrite ?Hr; apply strip_paren_rev.
Qed.

(** C4: for every emitted candidate, [uri] and [to] are those of the raw
    match (group 2, prefixed with ["https://"] for a bare domain, and
    [to = from + match[2].length + 1]) after the two trimming steps in
    order.  On ["(see http://foo.test)"] both parentheses stay outside
    [uri]; on ["(http://foo.test/a(b))"] no [)] is stripped, as the
    candidate contains a [(]. *)
Theorem iterateUris_trimming (isValidDomain : jsstring -> bool) :
  (forall s c, In c (scan isValidDomain s) ->
     exists last m, exec s last = Some m /\
       let g2 := substring s (m_start m) (m_end m) in
       c_from c = Z.of_nat (m_start m) /\
       ((c_uri c, c_to c) = spec_trim g2 (c_from c + Z.of_nat (length g2) + 1) \/
        (c_uri c, c_to c) =
          spec_trim (js "https://" ++ g2) (c_from c + Z.of_nat (length g2) + 1))) /\
  scan isValidDomain (js "(see http://foo.test)") =
    [{| c_from := 5; c_to := 21; c_uri := js "http://foo.test" |}] /\
  scan isValidDomain (js "(http://foo.test/a(b))") =
    [{| c_from := 1; c_to := 23; c_uri := js "http://foo.test/a(b))" |}].
Proof.
  split; [|split; reflexivity].
  intros s c Hin.
  destruct (scan_origin isValidDomain s c Hin) as (l & m & He & Hb).
  exists l, m. split; [exact He|]. cbv zeta.
  destruct (loop_body_shape isValidDomain s m c Hb) as (uri0 & Hu & Hf & Hut).
  rewrite (index_of_group2 s l m He) in Hf, Hut.
  split; [exact Hf|]. rewrite Hf. rewrite code_trim_is_spec_trim in Hut.
  destruct Hu as [[-> _] | [-> _]]; [left|right]; exact Hut.
Qed.

Lemma iterateUris_trimming_witness :
  In {| c_from := 5; c_to := 21; c_uri := js "http://foo.test" |}
     (scan (fun _ => true) (js "(see http://foo.test)")) /\
  exists last m, exec (js "(see http://foo.test)") last = Some m /\
    let g2 := substring (js "(see http://foo.test)") (m_start m) (m_end m) in
    5%Z = Z.of_nat (m_start m) /\
    ((js "http://foo.test", 21%Z) = spec_trim g2 (5 + Z.of_nat (length g2) + 1) \/
     (js "http://foo.test", 21%Z) =
       spec_trim (js "https://" ++ g2) (5 + Z.of_nat (length g2) + 1)).
Proof.
  split; [vm_compute; auto|].
  apply (proj1 (iterateUris_trimming (fun _ => true)) (js "(see http://foo.test)")
           {| c_from := 5; c_to := 21; c_uri := js "http://foo.test" |}).
  vm_compute. auto.
Defined.

(** C5 (code_bug): the scheme test is [uri.startsWith('http')] on the
    matched text, not which alternative matched: the bare domain
    ["httpbin.org"] (matched by the domain alternative, with its [domain]
    group) is emitted with [uri = "httpbin.org"], without the
    ["https://"] prefix and without consulting [isValidDomain]. *)
Theorem bare_domain_http_prefix_not_normalised (isValidDomain : jsstring -> bool) :
  exec (js "visit httpbin.org now") 0 =
    Some {| m_index := 5; m_start := 6; m_end := 17;
            m_domain := Some (js "httpbin.org") |} /\
  scan isValidDomain (js "visit httpbin.org now") =
    [{| c_from := 6; c_to := 18; c_uri := js "httpbin.org" |}].
Proof. split; reflexivity. Qed.

(** C6 (code_bug): the same test lets a bare domain starting with
    ["http"] bypass [isValidDomain]: whatever the predicate says of
    ["httpx.notatld"], a span is emitted for it. *)
Theorem invalid_http_domain_still_emitted (isValidDomain : jsstring -> bool) :
  exec (js "see httpx.notatld now") 0 =
    Some {| m_index := 3; m_start := 4; m_end := 17;
            m_domain := Some (js "httpx.notatld") |} /\
  iterateUris isValidDomain (js "see httpx.notatld now") = [(4%Z, 18%Z)].
Proof. split; reflexivity. Qed.

(** * Claims about the decoration synchroniser *)

(** ** Positions of the nodes of a document *)

(** [descendant_at cs q n]: [n] lies in the content [cs] at offset [q]:
    the first node is at 0, the nodes inside an element are one position
    after its start, and everything after a node is shifted by its
    [nodeSize]. *)
Inductive descendant_at : list node -> nat -> node -> Prop :=
| da_here (c : node) (cs : list node) : descendant_at (c :: cs) 0 c
| da_inside (ty : string) (kids cs : list node) (q : nat) (m : node) :
    descendant_at kids q m -> descendant_at (Elem ty kids :: cs) (S q) m
| da_later (c : node) (cs : list node) (q : nat) (m : node) :
    descendant_at cs q m -> descendant_at (c :: cs) (node_size c + q) m.

Lemma node_descendants_elem (pos : nat) (ty : string) (cs : list node) :
  node_descendants pos (Elem ty cs) = (pos, Elem ty cs) :: content_descendants (S pos) cs.
Proof. reflexivity. Qed.

Lemma node_descendants_leaf (pos : nat) (n : node) :
  (forall ty cs, n <> Elem ty cs) -> node_descendants pos n = [(pos, n)].
Proof. destruct n as [ms t|ty|ty cs]; intros H; try reflexivity. exfalso. eapply H; reflexivity. Qed.

Lemma descendant_at_cons (c : node) (cs : list node) (q : nat) (m : node) :
  descendant_at (c :: cs) q m <->
  (q = 0 /\ m = c) \/
  (exists ty kids q', c = Elem ty kids /\ q = S q' /\ descendant_at kids q' m) \/
  (exists q', q = node_size c + q' /\ descendant_at cs q' m).
Proof.
  split.
  - intros H. inversion H; subst.
    + left; auto.
    + right; left. eauto 6.
    + right; right. eauto.
  - intros [[-> ->] | [(ty & kids & q' & -> & -> & H) | (q' & -> & H)]].
    + constructor.
    + constructor. exact H.
    + constructor. exact H.
Qed.

Lemma descendant_at_nil (q : nat) (m : node) : ~ descendant_at [] q m.
Proof. intros H. inversion H. Qed.

Definition descendants_ok (n : node) : Prop :=
  forall pos p m,
    In (p, m) (node_descendants pos n) <->
    (p = pos /\ m = n) \/
    exists ty kids q, n = Elem ty kids /\ p = S pos + q /\ descendant_at kids q m.

Lemma content_descendants_ok (cs : list node) :
  Forall descendants_ok cs ->
  forall base p m,
    In (p, m) (content_descendants base cs) <->
    exists q, p = base + q /\ descendant_at cs q m.
Proof.
  induction cs as [|c cs IH]; intros Hf base p m.
  - simpl. split; [intros []|]. intros (q & _ & Hd). inversion Hd.
  - inversion Hf as [|? ? Pc Hcs]; subst. specialize (IH Hcs).
    simpl. rewrite in_app_iff. split.
    + intros [H|H].
      * apply Pc in H as [[-> ->]|(ty & kids & q & -> & -> & Hd)].
        -- exists 0. split; [lia|constructor].
        -- exists (S q). split; [lia|]. constructor. exact Hd.
      * apply IH in H as (q & -> & Hd).
        exists (node_size c + q). split; [lia|]. apply da_later. exact Hd.
    + intros (q & -> & Hd).
      apply descendant_at_cons in Hd
        as [[-> ->] | [(ty & kids & q' & -> & -> & Hd) | (q' & -> & Hd)]].
      * left. apply Pc. left. split; [lia|reflexivity].
      * left. apply Pc. right. exists ty, kids, q'. split; [reflexivity|split; [lia|exact Hd]].
      * right. apply IH. exists q'. split; [lia|exact Hd].
Qed.

Lemma all_descendants_ok (n : node) : descendants_ok n.
Proof.
  induction n as [ms t|ty|ty cs Hcs] using node_ind'; unfold descendants_ok.
  - intros pos p m. simpl. split.
    + intros [H|[]]. inversion H; subst. left; auto.
    + intros [[-> ->]|(ty & kids & q & Habs & _)]; [left; reflexivity|discriminate].
  - intros pos p m. simpl. split.
    + intros [H|[]]. inversion H; subst. left; auto.
    + intros [[-> ->]|(ty' & kids & q & Habs & _)]; [left; reflexivity|discriminate].
  - intros pos p m. rewrite node_descendants_elem. simpl.
    rewrite (content_descendants_ok cs Hcs). split.
    + intros [H|(q & -> & Hd)].
      * inversion H; subst. left; auto.
      * right. exists ty, cs, q. split; [reflexivity|split; [lia|exact Hd]].
    + intros [[-> ->]|(ty' & kids & q & Heq & -> & Hd)]; [left; reflexivity|].
      inversion Heq; subst. right. exists q. split; [lia|exact Hd].
Qed.

(** [findChildren(doc, pred)] lists exactly the nodes of the document
    satisfying [pred], with their positions. *)
Lemma findChildren_spec (doc : node) (pred : node -> bool) (pos : nat) (n : node) :
  In (pos, n) (findChildren doc pred) <->
  descendant_at (doc_content doc) pos n /\ pred n = true.
Proof.
  unfold findChildren. rewrite filter_In. simpl.
  rewrite (content_descendants_ok (doc_content doc)).
  - split; [intros ((q & -> & Hd) & Hp); split; assumption|].
    intros (Hd & Hp). split; [exists pos; split; [reflexivity|exact Hd]|exact Hp].
  - apply Forall_forall. intros c _. apply all_descendants_ok.
Qed.

(** ** Initialisation *)

(** C9: on attachment the plugin state is computed from the document,
    which is left as it is: one decoration with class ["autolink"] per
    span of the scanner over the text content of each paragraph (and of
    nothing else), at the paragraph's position plus the span's offsets. *)
Theorem linkDecorator_init_decorations (isValidDomain : jsstring -> bool) (doc : node) :
  es_doc (linkDecorator_init isValidDomain doc) = doc /\
  (forall pos p, In (pos, p) (findChildren doc is_paragraph) <->
     descendant_at (doc_content doc) pos p /\ node_type_name p = "paragraph"%string) /\
  es_decorations (linkDecorator_init isValidDomain doc) =
    flat_map (fun pp => map (fun ft => {| d_from := (Z.of_nat (fst pp) + fst ft)%Z;
                                          d_to := (Z.of_nat (fst pp) + snd ft)%Z;
                                          d_class := "autolink" |})
                            (iterateUris isValidDomain (text_content (snd pp))))
             (findChildren doc is_paragraph) /\
  (forall d, In d (es_decorations (linkDecorator_init isValidDomain doc)) <->
     exists pos p from to,
       descendant_at (doc_content doc) pos p /\ node_type_name p = "paragraph"%string /\
       In (from, to) (iterateUris isValidDomain (text_content p)) /\
       d = {| d_from := (Z.of_nat pos + from)%Z; d_to := (Z.of_nat pos + to)%Z;
              d_class := "autolink" |}).
Proof.
  assert (Hfc : forall pos p, In (pos, p) (findChildren doc is_paragraph) <->
            descendant_at (doc_content doc) pos p /\ node_type_name p = "paragraph"%string).
  { intros pos p. rewrite findChildren_spec. unfold is_paragraph.
    rewrite String.eqb_eq. reflexivity. }
  split; [reflexivity|]. split; [exact Hfc|]. split; [reflexivity|].
  intros d. simpl. unfold getDecorations. rewrite in_flat_map. split.
  - intros ([pos p] & Hin & Hd). apply Hfc in Hin as (Hda & Hty).
    apply in_map_iff in Hd as ([from to] & <- & Hft).
    exists pos, p, from, to. auto.
  - intros (pos & p & from & to & Hda & Hty & Hft & ->).
    exists (pos, p). split; [apply Hfc; auto|].
    apply in_map_iff. exists (from, to). auto.
Qed.

(** ** Document changes *)

(** The synchroniser as the specification words it: rebuild when the
    text content changed, otherwise remap every decoration through the
    mapping and keep its class. *)
Definition text_changed (tr : transaction) : bool :=
  if list_eq_dec N.eq_dec (text_content (tr_before tr)) (text_content (tr_doc tr))
  then false else true.

Definition spec_apply (isValidDomain : jsstring -> bool) (tr : transaction)
  (ds : decoration_set) : decoration_set :=
  if text_changed tr then getDecorations isValidDomain (tr_doc tr)
  else map (fun d => {| d_from := mapping_map (tr_mapping tr) (d_from d) 1;
                        d_to := mapping_map (tr_mapping tr) (d_to d) (-1);
                        d_class := d_class d |}) ds.

(** [setBlockType] of the first block to a heading: a [ReplaceAroundStep]
    replacing the block's opening and closing tokens one for one, whose
    step map leaves every position in place. *)
Definition setBlockType_heading : step :=
  {| step_apply := fun d => match d with
                            | Elem ty (Elem _ cs :: rest) => Elem ty (Elem "heading" cs :: rest)
                            | _ => d
                            end;
     step_map := fun p _ => p |}.

Definition sample_doc : node :=
  Elem "doc" [Elem "paragraph" [Text [] (js "go to http://foo.test/path now")]].

(** C2 (counterexample): turning the paragraph into a heading keeps every
    character, yet the plugin rebuilds the set from the new document
    (which has no paragraph, so the link decoration is gone) instead of
    remapping the old set. *)
Lemma linkDecorator_apply_rescans_structural_change :
  let tr := {| tr_before := sample_doc; tr_steps := [setBlockType_heading] |} in
  let ds := getDecorations (fun _ => true) sample_doc in
  text_changed tr = false /\
  ds = [{| d_from := 6; d_to := 27; d_class := "autolink" |}] /\
  linkDecorator_apply (fun _ => true) tr ds = [] /\
  spec_apply (fun _ => true) tr ds = ds /\
  linkDecorator_apply (fun _ => true) tr ds <> spec_apply (fun _ => true) tr ds.
Proof. vm_compute. repeat split; discriminate. Qed.

(** C2 (amended): the set is rebuilt from the new document whenever the
    transaction has a step ([docChanged]), whether or not the text
    changed; a transaction without steps leaves the document as it is and
    maps the set through an empty mapping, which returns it unchanged.
    Hence every text change rebuilds the set. *)
Theorem linkDecorator_apply_rebuilds_on_docChanged (isValidDomain : jsstring -> bool)
  (tr : transaction) (ds : decoration_set) :
  (docChanged tr = true ->
     linkDecorator_apply isValidDomain tr ds = getDecorations isValidDomain (tr_doc tr)) /\
  (docChanged tr = false ->
     tr_doc tr = tr_before tr /\ tr_mapping tr = [] /\
     linkDecorator_apply isValidDomain tr ds = ds) /\
  (text_changed tr = true ->
     linkDecorator_apply isValidDomain tr ds = getDecorations isValidDomain (tr_doc tr)).
Proof.
  unfold linkDecorator_apply, docChanged, text_changed, tr_doc, tr_mapping.
  destruct tr as [before steps]. simpl.
  destruct steps as [|st steps]; simpl.
  - split; [discriminate|]. split; [auto|].
    destruct (list_eq_dec N.eq_dec (text_content before) (text_content before)); [discriminate|].
    contradiction.
  - split; [reflexivity|]. split; [discriminate|]. reflexivity.
Qed.

Lemma linkDecorator_apply_rebuilds_on_docChanged_witness :
  let tr := {| tr_before := sample_doc; tr_steps := [setBlockType_heading] |} in
  docChanged tr = true /\
  linkDecorator_apply (fun _ => true) tr (getDecorations (fun _ => true) sample_doc) =
    getDecorations (fun _ => true) (tr_doc tr).
Proof.
  split; [reflexivity|].
  apply (proj1 (linkDecorator_apply_rebuilds_on_docChanged (fun _ => true)
                  {| tr_before := sample_doc; tr_steps := [setBlockType_heading] |}
                  (getDecorations (fun _ => true) sample_doc))).
  reflexivity.
Defined.

(** * Further properties of the scanner *)

(** ** The text a span stands for *)

Lemma removelast_firstn_app (p l : jsstring) (k : nat) :
  1 <= k <= length l -> removelast (p ++ firstn k l) = p ++ firstn (k - 1) l.
Proof.
  intros Hk. rewrite removelast_app.
  - f_equal. replace k with (S (k - 1)) at 1 by lia. apply removelast_firstn. lia.
  - destruct l as [|a l]; [simpl in Hk; lia|].
    destruct k as [|k]; [lia|]. discriminate.
Qed.

Lemma strip_punct_firstn (p l : jsstring) (j k : nat) :
  1 <= k <= length l ->
  exists k', k - 1 <= k' <= k /\
    strip_punct (p ++ firstn k l) (Z.of_nat j + Z.of_nat k + 1)%Z =
    (p ++ firstn k' l, (Z.of_nat j + Z.of_nat k' + 1)%Z).
Proof.
  intros Hk. unfold strip_punct. destruct (ends_with_punct (p ++ firstn k l)).
  - exists (k - 1). split; [lia|]. rewrite removelast_firstn_app by lia. f_equal. lia.
  - exists k. split; [lia|reflexivity].
Qed.

Lemma strip_paren_firstn (p l : jsstring) (j k : nat) :
  1 <= k <= length l ->
  exists k', k - 1 <= k' <= k /\
    strip_paren (p ++ firstn k l) (Z.of_nat j + Z.of_nat k + 1)%Z =
    (p ++ firstn k' l, (Z.of_nat j + Z.of_nat k' + 1)%Z).
Proof.
  intros Hk. unfold strip_paren.
  destruct (ends_with_close_paren (p ++ firstn k l) &&
            negb (includes_open_paren (p ++ firstn k l))).
  - exists (k - 1). split; [lia|]. rewrite removelast_firstn_app by lia. f_equal. lia.
  - exists k. split; [lia|reflexivity].
Qed.

Section SpanText.

Variable isValidDomain : jsstring -> bool.

(** An emitted candidate keeps [k] units of group 2, [k] at most two
    less than its length; [uri] is these units, behind ["https://"] when
    the matched text does not start with ["http"]. *)
Lemma loop_body_text (s : jsstring) (last : nat) (m : regex_match) (c : candidate) :
  exec s last = Some m -> loop_body isValidDomain s m = Some c ->
  exists p k,
    (p = [] \/ p = js "https://") /\
    m_end m - m_start m - 2 <= k <= m_end m - m_start m /\
    c_from c = Z.of_nat (m_start m) /\
    c_to c = (Z.of_nat (m_start m) + Z.of_nat k + 1)%Z /\
    c_uri c = p ++ firstn k (skipn (m_start m) s).
Proof.
  intros He Hb.
  destruct (loop_body_shape isValidDomain s m c Hb) as (uri0 & Hu & Hf & Hut).
  rewrite (index_of_group2 s last m He) in Hf, Hut.
  destruct (exec_match_facts _ _ _ He) as (_ & H3 & Hle & _).
  set (n := m_end m - m_start m) in *.
  set (L := skipn (m_start m) s) in *.
  assert (HL : n <= length L) by (subst L; rewrite length_skipn; lia).
  assert (Hg : substring s (m_start m) (m_end m) = firstn n L) by reflexivity.
  rewrite Hg in Hu, Hut. rewrite length_firstn, Nat.min_l in Hut by lia.
  assert (Hp : exists p, (p = [] \/ p = js "https://") /\ uri0 = p ++ firstn n L).
  { destruct Hu as [[-> _] | [-> _]]; [exists []|exists (js "https://")]; auto. }
  destruct Hp as (p & Hp & ->).
  destruct (strip_punct_firstn p L (m_start m) n) as (k1 & Hk1 & S1); [lia|].
  rewrite S1 in Hut.
  destruct (strip_paren_firstn p L (m_start m) k1) as (k2 & Hk2 & S2); [lia|].
  rewrite S2 in Hut. inversion Hut as [[Hu2 Ht2]].
  exists p, k2. repeat split; auto; lia.
Qed.

End SpanText.

Lemma starts_with_firstn_inv (p l : jsstring) (n : nat) :
  starts_with p (firstn n l) = true -> starts_with p l = true.
Proof.
  revert l n. induction p as [|a p IH]; intros l n; [reflexivity|].
  destruct n as [|n]; [discriminate|]. destruct l as [|c l]; [discriminate|].
  simpl. intros H. apply andb_true_iff in H as [H1 H2].
  rewrite H1. eapply IH. exact H2.
Qed.

Lemma starts_with_firstn_intro (p l : jsstring) (n : nat) :
  starts_with p l = true -> length p <= n -> starts_with p (firstn n l) = true.
Proof.
  revert l n. induction p as [|a p IH]; intros l n; [reflexivity|].
  destruct l as [|c l]; [discriminate|]. destruct n as [|n]; simpl; [lia|].
  intros H Hn. apply andb_true_iff in H as [H1 H2]. rewrite H1. apply IH; [exact H2|lia].
Qed.

Lemma starts_with_app (p q l : jsstring) :
  starts_with (p ++ q) l = true -> starts_with p l = true.
Proof.
  revert l. induction p as [|a p IH]; intros l; [reflexivity|].
  destruct l as [|c l]; [discriminate|].
  simpl. intros H. apply andb_true_iff in H as [H1 H2]. rewrite H1. apply IH, H2.
Qed.

(** The [domain] group is a non-empty prefix of the text at group 2. *)
Lemma group2_at_domain (s : jsstring) (j e : nat) (d : jsstring) :
  group2_at s j = Some (e, Some d) -> d <> [] /\ starts_with d (skipn j s) = true.
Proof.
  unfold group2_at. set (l := skipn j s).
  destruct ((ci_prefix scheme_https l && negb (Nat.eqb (nonws_len (skipn 8 l)) 0))
            || (ci_prefix scheme_http l && negb (Nat.eqb (nonws_len (skipn 7 l)) 0)));
    [intros H; inversion H|].
  destruct l as [|c l'] eqn:El; [discriminate|].
  destruct (is_alpha c); [|discriminate].
  destruct (Nat.eqb (labels_len false (skipn (alnum_len l') l')) 0); [discriminate|].
  intros H. inversion H; subst. split; [discriminate|].
  simpl. rewrite N.eqb_refl. apply starts_with_firstn.
Qed.

Lemma nth_error_span (s : jsstring) (last : nat) (m : regex_match) (i : nat) :
  exec s last = Some m -> m_start m <= i < m_end m ->
  exists ch, nth_error s i = Some ch /\ is_ws ch = false.
Proof.
  intros He Hi. destruct (exec_match_facts _ _ _ He) as (Hend & _).
  destruct (nonws_len_nth (skipn (m_start m) s) (i - m_start m)) as (ch & Hch & Hw); [lia|].
  rewrite nth_error_skipn' in Hch. replace (m_start m + (i - m_start m)) with i in Hch by lia.
  eauto.
Qed.


(** X2: every span lies in the string up to one unit past its end, and
    its text ([from .. to - 2]) contains no whitespace. *)
Theorem iterateUris_span_bounds (isValidDomain : jsstring -> bool) (s : jsstring)
  (from to : Z) :
  In (from, to) (iterateUris isValidDomain s) ->
  (0 <= from < to)%Z /\ (to <= Z.of_nat (length s) + 1)%Z /\
  forall i : nat, (from <= Z.of_nat i < to - 1)%Z ->
    exists ch, nth_error s i = Some ch /\ is_ws ch = false.
Proof.
  intros Hin. destruct (in_iterateUris isValidDomain s from to Hin) as (c & Hc & <- & <-).
  destruct (scan_origin isValidDomain s c Hc) as (l & m & He & Hb).
  destruct (loop_body_text isValidDomain s l m c He Hb)
    as (p & k & Hp & Hk & Hf & Ht & Hu).
  destruct (exec_match_facts _ _ _ He) as (_ & H3 & Hle & _).
  split; [lia|]. split; [lia|].
  intros i Hi. apply (nth_error_span s l m i He). lia.
Qed.

(** X3: the scanner never reports a span whose text neither starts with
    ["http"] nor starts with a non-empty domain accepted by
    [isValidDomain]. *)
Theorem iterateUris_validated (isValidDomain : jsstring -> bool) (s : jsstring)
  (from to : Z) :
  In (from, to) (iterateUris isValidDomain s) ->
  starts_with (js "http") (skipn (Z.to_nat from) s) = true \/
  exists domain, domain <> [] /\ isValidDomain domain = true /\
                 starts_with domain (skipn (Z.to_nat from) s) = true.
Proof.
  intros Hin. destruct (in_iterateUris isValidDomain s from to Hin) as (c & Hc & <- & _).
  destruct (scan_origin isValidDomain s c Hc) as (l & m & He & Hb).
  destruct (loop_body_spec isValidDomain s l m c He Hb) as (Hf & _).
  destruct (loop_body_shape isValidDomain s m c Hb) as (uri0 & Hu & _).
  rewrite Hf, Nat2Z.id.
  destruct Hu as [[_ Hh] | (_ & _ & domain & Hd & Hne & Hv)].
  - left. exact (starts_with_firstn_inv _ _ _ Hh).
  - right. exists domain. split; [exact Hne|]. split; [exact Hv|].
    destruct (exec_spec _ _ _ He) as (_ & _ & G). rewrite Hd in G.
    apply (group2_at_domain s _ _ _ G).
Qed.

(** ** Every link after whitespace is reported *)

Lemma skipn_cons_lt (s : jsstring) (j : nat) (c : char) (rest : jsstring) :
  skipn j s = c :: rest -> j < length s.
Proof.
  intros H. assert (Hl : length (skipn j s) = S (length rest)) by (rewrite H; reflexivity).
  rewrite length_skipn in Hl. lia.
Qed.

Lemma match_at_lt_length (s : jsstring) (i : nat) (m : regex_match) :
  match_at s i = Some m -> i < length s.
Proof.
  intros H. destruct (match_at_spec _ _ _ H) as (Hi & G1 & G).
  destruct (group2_at_spec _ _ _ _ G) as (_ & _ & c & rest & Hs & _).
  pose proof (skipn_cons_lt _ _ _ _ Hs).
  destruct G1 as [[Hj _]|[Hj _]]; rewrite Hj in *; lia.
Qed.

(** [exec] from [lastIndex <= i] returns a match starting at [i] at the
    latest when the regular expression matches at [i]. *)
Lemma search_finds (s : jsstring) (i : nat) (m0 : regex_match) :
  match_at s i = Some m0 ->
  forall n last, last <= i <= last + n ->
  exists m, search s last n = Some m /\ m_index m <= i /\ match_at s (m_index m) = Some m.
Proof.
  intros H0. induction n as [|n IH]; intros last Hl; simpl.
  - assert (last = i) as -> by lia. rewrite H0. exists m0.
    destruct (match_at_spec _ _ _ H0) as (Hi & _). rewrite Hi.
    split; [reflexivity|split; [lia|exact H0]].
  - destruct (match_at s last) as [m|] eqn:Hm.
    + exists m. destruct (match_at_spec _ _ _ Hm) as (Hi & _). rewrite Hi.
      split; [reflexivity|split; [lia|exact Hm]].
    + destruct (Nat.eq_dec last i) as [->|Hne]; [congruence|].
      apply IH. lia.
Qed.

Lemma exec_finds (s : jsstring) (i last : nat) (m0 : regex_match) :
  match_at s i = Some m0 -> last <= i ->
  exists m, exec s last = Some m /\ m_index m <= i /\ match_at s (m_index m) = Some m.
Proof.
  intros H0 Hl. pose proof (match_at_lt_length _ _ _ H0) as Hi.
  unfold exec. replace (Nat.leb last (length s)) with true by (symmetry; apply Nat.leb_le; lia).
  apply (search_finds s i m0 H0). lia.
Qed.

(** A match of [exec] that starts before a whitespace unit at [i] ends
    at [i] at the latest. *)
Lemma exec_end_before_ws (s : jsstring) (last i : nat) (m : regex_match) (c : char) :
  exec s last = Some m -> m_index m < i -> nth_error s i = Some c -> is_ws c = true ->
  m_end m <= i.
Proof.
  intros He Hlt Hc Hw. destruct (exec_spec _ _ _ He) as (_ & G1 & _).
  assert (m_start m <= i) by (destruct G1 as [[-> _]|[-> _]]; lia).
  destruct (Nat.le_gt_cases (m_end m) i) as [Hle|Hgt]; [exact Hle|exfalso].
  destruct (nth_error_span s last m i He) as (ch & Hch & Hw'); [lia|].
  rewrite Hc in Hch. inversion Hch; subst. congruence.
Qed.

Section Reach.

Variable isValidDomain : jsstring -> bool.

(** When the regular expression matches at [i], and [i] is the start
    of the string or a whitespace unit, the loop gets that very match
    from [exec] (no earlier match swallows it) and emits its candidate
    if the body does not [continue]. *)
Lemma scan_loop_reaches (s : jsstring) (i : nat) (m0 : regex_match) :
  match_at s i = Some m0 ->
  (i = 0 \/ exists c, nth_error s i = Some c /\ is_ws c = true) ->
  forall fuel last cs, last <= i -> scan_loop isValidDomain fuel s last = Some cs ->
  exists l, exec s l = Some m0 /\
            forall c, loop_body isValidDomain s m0 = Some c -> In c cs.
Proof.
  intros H0 Hi. induction fuel as [|fuel IH]; intros last cs Hl H; [discriminate|].
  rewrite scan_loop_S in H.
  destruct (exec_finds s i last m0 H0 Hl) as (m & He & Hmi & Hm).
  rewrite He in H.
  destruct (Nat.eq_dec (m_index m) i) as [Heq|Hne].
  - rewrite Heq, H0 in Hm. inversion Hm; subst m.
    exists last. split; [exact He|]. intros c Hc. rewrite Hc in H.
    destruct (scan_loop isValidDomain fuel s (m_end m0)); simpl in H; [|discriminate].
    inversion H. left. reflexivity.
  - assert (Hend : m_end m <= i).
    { destruct Hi as [-> | (c & Hc & Hw)]; [lia|].
      apply (exec_end_before_ws s last i m c He); [lia|exact Hc|exact Hw]. }
    destruct (loop_body isValidDomain s m) as [c'|].
    + destruct (scan_loop isValidDomain fuel s (m_end m)) as [rest|] eqn:Hr;
        simpl in H; [|discriminate].
      inversion H; subst cs.
      destruct (IH (m_end m) rest Hend Hr) as (l & Hl0 & Hin).
      exists l. split; [exact Hl0|]. intros c Hc. right. apply Hin, Hc.
    + apply (IH (m_end m) cs Hend H).
Qed.

Lemma scan_reaches (s : jsstring) (i : nat) (m0 : regex_match) (c : candidate) :
  match_at s i = Some m0 ->
  (i = 0 \/ exists ch, nth_error s i = Some ch /\ is_ws ch = true) ->
  loop_body isValidDomain s m0 = Some c ->
  In (c_from c, c_to c) (iterateUris isValidDomain s) /\
  c_from c = Z.of_nat (m_start m0) /\
  (Z.of_nat (m_end m0) - 1 <= c_to c)%Z.
Proof.
  intros H0 Hi Hb.
  pose proof (scan_loop_fuel_irrelevant isValidDomain s (S (length s)) (Nat.lt_succ_diag_r _))
    as Hs.
  destruct (scan_loop_reaches s i m0 H0 Hi _ 0 _ (Nat.le_0_l _) Hs) as (l & He & Hin).
  destruct (loop_body_spec isValidDomain s l m0 c He Hb) as (Hf & Ht).
  split; [|split; [exact Hf|lia]].
  unfold iterateUris. apply in_map_iff. exists c. auto.
Qed.

End Reach.

(** Group 2 matching at [j], with [j] at the start of the string or
    after whitespace: the regular expression matches at [j] or at [j - 1]
    with group 2 at [j]. *)
Lemma match_at_group2 (s : jsstring) (j e : nat) (d : option jsstring) :
  group2_at s j = Some (e, d) ->
  (j = 0 \/ exists i c, j = S i /\ nth_error s i = Some c /\ is_ws c = true) ->
  exists i, match_at s i = Some {| m_index := i; m_start := j; m_end := e; m_domain := d |} /\
            (i = 0 \/ exists c, nth_error s i = Some c /\ is_ws c = true).
Proof.
  intros G [-> | (i & c & -> & Hc & Hw)].
  - exists 0. split; [|left; reflexivity].
    unfold match_at. cbv zeta. simpl at_line_start. rewrite G. reflexivity.
  - exists i. split; [|right; eauto].
    assert (Gi : group2_at s i = None).
    { destruct (group2_at s i) as [[e' d']|] eqn:Gi; [exfalso|reflexivity].
      destruct (group2_at_spec _ _ _ _ Gi) as (_ & _ & c' & rest & Hs & Ha).
      rewrite (skipn_cons_nth s i c Hc) in Hs. inversion Hs; subst c'.
      rewrite (printable_not_ws c) in Hw by (pose proof (alpha_range c Ha); lia).
      discriminate. }
    unfold match_at. cbv zeta. rewrite Gi.
    destruct (at_line_start s i); unfold char_at; rewrite Hc, Hw, G; reflexivity.
Qed.

Lemma starts_with_ci_prefix (p l : jsstring) :
  starts_with p l = true -> ci_prefix p l = true.
Proof.
  revert l. induction p as [|a p IH]; intros l; [reflexivity|].
  destruct l as [|c l]; [discriminate|]. simpl.
  intros H. apply andb_true_iff in H as [H1 H2]. apply N.eqb_eq in H1. subst c.
  unfold ci_eq. rewrite N.eqb_refl. simpl. apply IH, H2.
Qed.

Lemma nonws_len_nth_pos (l : jsstring) (n : nat) (c : char) :
  nth_error l n = Some c -> is_ws c = false -> nonws_len (skipn n l) <> 0.
Proof.
  intros Hc Hw. rewrite (skipn_cons_nth l n c Hc). simpl. rewrite Hw. discriminate.
Qed.

(** Group 2 at a lowercase ["http://"] or ["https://"] followed by a
    non-whitespace unit: the scheme alternative. *)
Lemma group2_at_lower_scheme (s : jsstring) (j : nat) :
  let l := skipn j s in
  (starts_with (js "http://") l = true /\
   exists c, nth_error l 7 = Some c /\ is_ws c = false) \/
  (starts_with (js "https://") l = true /\
   exists c, nth_error l 8 = Some c /\ is_ws c = false) ->
  group2_at s j = Some (j + nonws_len l, None).
Proof.
  intros l H. unfold group2_at. fold l.
  replace ((ci_prefix scheme_https l && negb (Nat.eqb (nonws_len (skipn 8 l)) 0))
           || (ci_prefix scheme_http l && negb (Nat.eqb (nonws_len (skipn 7 l)) 0)))
    with true; [reflexivity|].
  symmetry. apply orb_true_iff.
  destruct H as [(Hp & c & Hc & Hw) | (Hp & c & Hc & Hw)]; [right|left];
    apply andb_true_iff; (split; [apply starts_with_ci_prefix, Hp|]);
    apply negb_true_iff, Nat.eqb_neq; eapply nonws_len_nth_pos; eassumption.
Qed.

(** X4: every link with a lowercase ["http://"] or ["https://"] scheme
    followed by a non-whitespace unit, at the start of the string or
    after a whitespace unit, is reported: there is a [cb(from, to)] call
    with [from] at the link and [to] at least at the end of the
    non-whitespace run minus one (the extra unit minus at most two
    trimmed units). *)
Theorem iterateUris_reports_lowercase_scheme (isValidDomain : jsstring -> bool)
  (s : jsstring) (j : nat) :
  (j = 0 \/ exists i c, j = S i /\ nth_error s i = Some c /\ is_ws c = true) ->
  (starts_with (js "http://") (skipn j s) = true /\
   exists c, nth_error (skipn j s) 7 = Some c /\ is_ws c = false) \/
  (starts_with (js "https://") (skipn j s) = true /\
   exists c, nth_error (skipn j s) 8 = Some c /\ is_ws c = false) ->
  exists to, In (Z.of_nat j, to) (iterateUris isValidDomain s) /\
             (Z.of_nat (j + nonws_len (skipn j s)) - 1 <= to)%Z.
Proof.
  intros Hj Hl.
  pose proof (group2_at_lower_scheme s j Hl) as G.
  destruct (match_at_group2 s j _ _ G Hj) as (i & Hm & Hi).
  set (m0 := {| m_index := i; m_start := j; m_end := j + nonws_len (skipn j s);
                m_domain := None |}) in Hm.
  assert (Hh : starts_with (js "http") (substring s (m_start m0) (m_end m0)) = true).
  { assert (H7 : 7 <= nonws_len (skipn j s)).
    { destruct Hl as [(Hp & _) | (Hp & _)].
      - rewrite (ci_prefix_nonws _ _ (starts_with_ci_prefix _ _ Hp))
          by (repeat constructor; simpl; lia). simpl. lia.
      - rewrite (ci_prefix_nonws _ _ (starts_with_ci_prefix _ _ Hp))
          by (repeat constructor; simpl; lia). simpl. lia. }
    change (starts_with (js "http")
            (firstn (j + nonws_len (skipn j s) - j) (skipn j s)) = true).
    apply starts_with_firstn_intro; [|simpl; lia].
    destruct Hl as [(Hp & _) | (Hp & _)].
    - apply (starts_with_app (js "http") (js "://")), Hp.
    - apply (starts_with_app (js "http") (js "s://")), Hp. }
  destruct (group2_at_spec _ _ _ _ G) as (_ & H3 & _).
  assert (Hb : exists c, loop_body isValidDomain s m0 = Some c).
  { unfold loop_body. cbv zeta. rewrite Hh.
    match goal with
    | |- context [strip_punct ?u ?t] => destruct (strip_punct u t) as [u1 t1]
    end.
    destruct (strip_paren u1 t1). eauto. }
  destruct Hb as (c & Hb).
  destruct (scan_reaches isValidDomain s i m0 c Hm Hi Hb) as (Hin & Hf & Ht).
  exists (c_to c). replace (Z.of_nat j) with (c_from c) by (rewrite Hf; reflexivity).
  split; [exact Hin|exact Ht].
Qed.

(** X5: the same for a bare domain: when the domain alternative of
    group 2 matches at the start of the string or after a whitespace
    unit, and [isValidDomain] accepts its [domain] group, the link is
    reported, from its first unit. *)
Theorem iterateUris_reports_valid_domain (isValidDomain : jsstring -> bool)
  (s : jsstring) (j e : nat) (domain : jsstring) :
  (j = 0 \/ exists i c, j = S i /\ nth_error s i = Some c /\ is_ws c = true) ->
  group2_at s j = Some (e, Some domain) ->
  isValidDomain domain = true ->
  exists to, In (Z.of_nat j, to) (iterateUris isValidDomain s) /\
             (Z.of_nat e - 1 <= to)%Z.
Proof.
  intros Hj G Hv.
  destruct (match_at_group2 s j _ _ G Hj) as (i & Hm & Hi).
  set (m0 := {| m_index := i; m_start := j; m_end := e; m_domain := Some domain |}) in Hm.
  destruct (group2_at_domain s j e domain G) as (Hne & _).
  assert (Hb : exists c, loop_body isValidDomain s m0 = Some c).
  { unfold loop_body. cbv zeta.
    destruct (starts_with (js "http") (substring s (m_start m0) (m_end m0))).
    - match goal with
      | |- context [strip_punct ?u ?t] => destruct (strip_punct u t) as [u1 t1]
      end.
      destruct (strip_paren u1 t1). eauto.
    - simpl m_domain. destruct domain as [|a domain']; [contradiction|].
      rewrite Hv. cbn [orb negb].
      match goal with
      | |- context [strip_punct ?u ?t] => destruct (strip_punct u t) as [u1 t1]
      end.
      destruct (strip_paren u1 t1). eauto. }
  destruct Hb as (c & Hb).
  destruct (scan_reaches isValidDomain s i m0 c Hm Hi Hb) as (Hin & Hf & Ht).
  exists (c_to c). replace (Z.of_nat j) with (c_from c) by (rewrite Hf; reflexivity).
  split; [exact Hin|exact Ht].
Qed.

(** ** Links with an upper-case scheme *)

Lemma ci_eq_colon (c : char) : ci_eq 58%N c = true -> c = 58%N.
Proof. unfold ci_eq. simpl. rewrite orb_false_r. apply N.eqb_eq. Qed.

Lemma ci_eq_letter_alnum (lit c : char) :
  (97 <= lit <= 122)%N -> ci_eq lit c = true -> is_alnum c = true.
Proof.
  intros Hl H. unfold ci_eq in H. apply orb_true_iff in H as [H|H].
  - apply N.eqb_eq in H. subst c. unfold is_alnum, is_alpha.
    replace (N.leb 97 lit && N.leb lit 122) with true
      by (symmetry; apply andb_true_iff; split; apply N.leb_le; lia).
    rewrite !orb_true_r. reflexivity.
  - apply andb_true_iff in H as [_ H]. apply N.eqb_eq in H. subst c.
    unfold is_alnum, is_alpha.
    replace (N.leb 65 (lit - 32) && N.leb (lit - 32) 90) with true
      by (symmetry; apply andb_true_iff; split; apply N.leb_le; lia).
    reflexivity.
Qed.

(** Text starting with ["http://"] or ["https://"] in any case is never
    the domain alternative: after the letters comes [':'], not ['.']. *)
Lemma group2_at_ci_scheme (s : jsstring) (j : nat) :
  ci_prefix (js "http://") (skipn j s) = true \/
  ci_prefix (js "https://") (skipn j s) = true ->
  forall e d, group2_at s j = Some (e, d) -> d = None.
Proof.
  intros Hp e d. unfold group2_at. set (l := skipn j s) in *.
  destruct ((ci_prefix scheme_https l && negb (Nat.eqb (nonws_len (skipn 8 l)) 0))
            || (ci_prefix scheme_http l && negb (Nat.eqb (nonws_len (skipn 7 l)) 0)));
    [intros H; inversion H; reflexivity|].
  destruct l as [|c1 [|c2 [|c3 [|c4 [|c5 rest]]]]]; try discriminate;
    destruct Hp as [Hp|Hp]; simpl in Hp; rewrite ?andb_false_r in Hp; try discriminate.
  - apply andb_true_iff in Hp as [_ Hp]. apply andb_true_iff in Hp as [H2 Hp].
    apply andb_true_iff in Hp as [H3 Hp]. apply andb_true_iff in Hp as [H4 Hp].
    apply andb_true_iff in Hp as [H5 _]. apply ci_eq_colon in H5. subst c5.
    apply ci_eq_letter_alnum in H2, H3, H4; try (simpl; lia).
    simpl. rewrite H2, H3, H4. simpl. destruct (is_alpha c1); discriminate.
  - apply andb_true_iff in Hp as [_ Hp]. apply andb_true_iff in Hp as [H2 Hp].
    apply andb_true_iff in Hp as [H3 Hp]. apply andb_true_iff in Hp as [H4 Hp].
    apply andb_true_iff in Hp as [H5 Hp]. destruct rest as [|c6 rest]; [discriminate|].
    apply andb_true_iff in Hp as [H6 _]. apply ci_eq_colon in H6. subst c6.
    apply ci_eq_letter_alnum in H2, H3, H4, H5; try (simpl; lia).
    simpl. rewrite H2, H3, H4, H5. simpl. destruct (is_alpha c1); discriminate.
Qed.

(** X6: a link whose scheme is ["http://"] or ["https://"] in any case
    but whose text does not start with the lowercase ["http"] (for
    instance ["HTTP://"]) is matched by the case-insensitive regular
    expression, then skipped by the case-sensitive [startsWith('http')]
    test: no [cb(from, to)] call starts at it. *)
Theorem iterateUris_skips_uppercase_scheme (isValidDomain : jsstring -> bool)
  (s : jsstring) (j : nat) :
  ci_prefix (js "http://") (skipn j s) = true \/
  ci_prefix (js "https://") (skipn j s) = true ->
  starts_with (js "http") (skipn j s) = false ->
  forall to, ~ In (Z.of_nat j, to) (iterateUris isValidDomain s).
Proof.
  intros Hp Hh to Hin.
  destruct (in_iterateUris isValidDomain s _ _ Hin) as (c & Hc & Hf & _).
  destruct (scan_origin isValidDomain s c Hc) as (l & m & He & Hb).
  destruct (loop_body_spec isValidDomain s l m c He Hb) as (Hf' & _).
  assert (Hj : m_start m = j) by lia.
  destruct (exec_spec _ _ _ He) as (_ & _ & G). rewrite Hj in G.
  pose proof (group2_at_ci_scheme s j Hp _ _ G) as Hd.
  destruct (loop_body_shape isValidDomain s m c Hb) as (uri0 & Hu & _).
  destruct Hu as [[_ Hh'] | (_ & _ & domain & Hd' & _)].
  - unfold substring in Hh'. rewrite Hj in Hh'.
    apply starts_with_firstn_inv in Hh'. congruence.
  - congruence.
Qed.

(** ** [isValidDomain] only filters *)

Section Monotone.

Variables valid1 valid2 : jsstring -> bool.
Hypothesis valid_incl : forall d, valid1 d = true -> valid2 d = true.



End Monotone.



(** ** Text after a whitespace unit does not change the spans before it *)

Section AfterWhitespace.

Variable w : char.
Hypothesis w_ws : is_ws w = true.

Lemma w_not_alnum : is_alnum w = false.
Proof.
  destruct (is_alnum w) eqn:E; [|reflexivity].
  rewrite (alnum_not_ws w E) in w_ws. discriminate.
Qed.

Lemma w_not_alpha : is_alpha w = false.
Proof.
  destruct (is_alpha w) eqn:E; [|reflexivity].
  rewrite (alnum_not_ws w (alpha_alnum w E)) in w_ws. discriminate.
Qed.

Lemma w_not_dot : N.eqb w 46 = false.
Proof. destruct (N.eqb_spec w 46) as [->|]; [discriminate|reflexivity]. Qed.

(** Each greedy run of the regular expression stops at [w]: what comes
    after it is never looked at. *)
Lemma nonws_len_ws (a t : jsstring) : nonws_len (a ++ w :: t) = nonws_len (a ++ [w]).
Proof. induction a as [|c a IH]; simpl; [rewrite w_ws; reflexivity|rewrite IH; reflexivity]. Qed.

Lemma nonws_len_ws_le (a : jsstring) : nonws_len (a ++ [w]) <= length a.
Proof.
  induction a as [|c a IH]; simpl; [rewrite w_ws; lia|].
  destruct (is_ws c); simpl; lia.
Qed.

Lemma alnum_len_ws (a t : jsstring) : alnum_len (a ++ w :: t) = alnum_len (a ++ [w]).
Proof.
  induction a as [|c a IH]; simpl; [rewrite w_not_alnum; reflexivity|rewrite IH; reflexivity].
Qed.

Lemma labels_len_ws (b : bool) (a t : jsstring) :
  labels_len b (a ++ w :: t) = labels_len b (a ++ [w]).
Proof.
  revert b. induction a as [|c a IH]; intros b; simpl.
  - rewrite w_not_alnum, andb_false_r, w_not_dot. reflexivity.
  - rewrite !IH. destruct (b && is_alnum c); [reflexivity|].
    destruct (N.eqb c 46); [|reflexivity].
    destruct a as [|d a]; simpl; [rewrite w_not_alnum; reflexivity|reflexivity].
Qed.

Lemma ci_prefix_ws (lits a t : jsstring) :
  Forall (fun x => (33 <= x <= 126)%N) lits ->
  ci_prefix lits (a ++ w :: t) = ci_prefix lits (a ++ [w]).
Proof.
  revert lits. induction a as [|c a IH]; intros lits Hl;
    destruct lits as [|x lits]; try reflexivity; inversion Hl; subst.
  - simpl. destruct (ci_eq x w) eqn:E; [|reflexivity].
    rewrite (ci_eq_not_ws x w E) in w_ws by assumption. discriminate.
  - simpl. rewrite IH by assumption. reflexivity.
Qed.

Lemma ci_prefix_ws_length (lits a : jsstring) :
  Forall (fun x => (33 <= x <= 126)%N) lits ->
  ci_prefix lits (a ++ [w]) = true -> length lits <= length a.
Proof.
  revert lits. induction a as [|c a IH]; intros lits Hl;
    destruct lits as [|x lits]; simpl; try lia; inversion Hl; subst.
  - rewrite andb_true_iff. intros [E _].
    rewrite (ci_eq_not_ws x w E) in w_ws by assumption. discriminate.
  - rewrite andb_true_iff. intros [_ E]. specialize (IH lits H2 E). lia.
Qed.

Lemma skipn_app_le (n : nat) (a b : jsstring) :
  n <= length a -> skipn n (a ++ b) = skipn n a ++ b.
Proof. intros H. rewrite skipn_app. replace (n - length a) with 0 by lia. reflexivity. Qed.

Lemma firstn_app_le (n : nat) (a b : jsstring) :
  n <= length a -> firstn n (a ++ b) = firstn n a.
Proof.
  intros H. rewrite firstn_app. replace (n - length a) with 0 by lia.
  simpl. apply app_nil_r.
Qed.

Lemma scheme_nonws_ws (lits a t : jsstring) :
  Forall (fun x => (33 <= x <= 126)%N) lits ->
  ci_prefix lits (a ++ w :: t) &&
    negb (Nat.eqb (nonws_len (skipn (length lits) (a ++ w :: t))) 0) =
  ci_prefix lits (a ++ [w]) &&
    negb (Nat.eqb (nonws_len (skipn (length lits) (a ++ [w]))) 0).
Proof.
  intros Hl. rewrite ci_prefix_ws by exact Hl.
  destruct (ci_prefix lits (a ++ [w])) eqn:E; [|reflexivity].
  pose proof (ci_prefix_ws_length lits a Hl E).
  rewrite !skipn_app_le by lia. rewrite nonws_len_ws. reflexivity.
Qed.

(** Group 2 at an index before [w] is the same whatever follows [w]. *)
Lemma group2_at_ws (s1 s2 : jsstring) (j : nat) (a t : jsstring) :
  skipn j s1 = a ++ w :: t -> skipn j s2 = a ++ [w] ->
  group2_at s1 j = group2_at s2 j.
Proof.
  intros H1 H2. unfold group2_at. rewrite H1, H2.
  rewrite (scheme_nonws_ws scheme_https) by (repeat constructor; simpl; lia).
  rewrite (scheme_nonws_ws scheme_http) by (repeat constructor; simpl; lia).
  rewrite nonws_len_ws.
  destruct (_ || _); [reflexivity|].
  destruct a as [|c a]; simpl; [rewrite w_not_alpha; reflexivity|].
  destruct (is_alpha c); [|reflexivity].
  rewrite alnum_len_ws.
  pose proof (alnum_len_le_nonws (a ++ [w])) as Hk.
  pose proof (nonws_len_ws_le a) as Hn.
  rewrite !skipn_app_le by lia. rewrite labels_len_ws.
  destruct (Nat.eqb _ 0); [reflexivity|].
  pose proof (labels_len_le_nonws false (skipn (alnum_len (a ++ [w])) a ++ [w])) as Hd.
  pose proof (nonws_len_ws_le (skipn (alnum_len (a ++ [w])) a)) as Hd'.
  rewrite length_skipn in Hd'.
  rewrite !firstn_app_le by lia. reflexivity.
Qed.

Variables s0 t : jsstring.

Lemma skipn_s0_ws (j : nat) (u : jsstring) :
  j <= length s0 -> skipn j (s0 ++ w :: u) = skipn j s0 ++ w :: u.
Proof. apply skipn_app_le. Qed.

Lemma match_at_ws_prefix (i : nat) :
  S i <= length s0 -> match_at ((s0 ++ [w]) ++ t) i = match_at (s0 ++ [w]) i.
Proof.
  intros Hi. rewrite <- app_assoc. simpl.
  assert (G : forall j, j <= length s0 ->
            group2_at (s0 ++ w :: t) j = group2_at (s0 ++ [w]) j).
  { intros j Hj. apply (group2_at_ws _ _ j (skipn j s0) t);
      apply skipn_s0_ws; exact Hj. }
  assert (C : forall k, k < length s0 -> char_at (s0 ++ w :: t) k = char_at (s0 ++ [w]) k).
  { intros k Hk. unfold char_at. rewrite !nth_error_app1 by lia. reflexivity. }
  assert (L : at_line_start (s0 ++ w :: t) i = at_line_start (s0 ++ [w]) i).
  { destruct i as [|i]; [reflexivity|]. simpl. rewrite C by lia. reflexivity. }
  unfold match_at. cbv zeta.
  rewrite L, (G i), (G (S i)), (C i) by lia. reflexivity.
Qed.

Lemma match_at_ws_tail (i : nat) (m : regex_match) :
  length s0 <= i -> match_at (s0 ++ [w]) i <> Some m.
Proof.
  intros Hi H. destruct (match_at_spec _ _ _ H) as (Hidx & G1 & G).
  destruct (group2_at_spec _ _ _ _ G) as (_ & H3 & _).
  pose proof (nonws_len_le (skipn (m_start m) (s0 ++ [w]))) as Hle.
  rewrite length_skipn, length_app in Hle. simpl in Hle.
  destruct G1 as [[Hj _]|[Hj _]]; rewrite Hj, Hidx in *; lia.
Qed.

End AfterWhitespace.

Lemma search_first (s : jsstring) (n i : nat) (m : regex_match) :
  search s i n = Some m ->
  i <= m_index m /\ match_at s (m_index m) = Some m /\
  forall k, i <= k < m_index m -> match_at s k = None.
Proof.
  revert i. induction n as [|n IH]; intros i; simpl;
    destruct (match_at s i) as [m'|] eqn:Hm; try discriminate.
  - intros H. inversion H; subst. destruct (match_at_spec _ _ _ Hm) as (Hi & _).
    rewrite Hi. split; [lia|]. split; [exact Hm|]. intros k Hk. lia.
  - intros H. inversion H; subst. destruct (match_at_spec _ _ _ Hm) as (Hi & _).
    rewrite Hi. split; [lia|]. split; [exact Hm|]. intros k Hk. lia.
  - intros H. destruct (IH (S i) H) as (H1 & H2 & H3).
    split; [lia|]. split; [exact H2|].
    intros k Hk. destruct (Nat.eq_dec k i) as [->|]; [exact Hm|]. apply H3. lia.
Qed.

Lemma search_from_first (s : jsstring) (n i j : nat) (m : regex_match) :
  (forall k, i <= k < j -> match_at s k = None) -> match_at s j = Some m ->
  i <= j <= i + n -> search s i n = Some m.
Proof.
  revert i. induction n as [|n IH]; intros i Hk Hj Hr; simpl.
  - assert (i = j) as -> by lia. rewrite Hj. reflexivity.
  - destruct (Nat.eq_dec i j) as [->|Hne]; [rewrite Hj; reflexivity|].
    rewrite (Hk i) by lia. apply IH; [intros k Hk'; apply Hk; lia|exact Hj|lia].
Qed.

Section AfterWhitespaceLoop.

Variable isValidDomain : jsstring -> bool.
Variable w : char.
Hypothesis w_ws : is_ws w = true.
Variables s0 t : jsstring.

Lemma exec_ws_prefix (last : nat) (m : regex_match) :
  exec (s0 ++ [w]) last = Some m ->
  exec ((s0 ++ [w]) ++ t) last = Some m /\ m_index m < length s0.
Proof.
  intros He. pose proof He as He0. unfold exec in He.
  destruct (Nat.leb last (length (s0 ++ [w]))) eqn:Hl; [|discriminate].
  destruct (search_first _ _ _ _ He) as (H1 & H2 & H3).
  assert (Hlt : m_index m < length s0).
  { destruct (Nat.lt_ge_cases (m_index m) (length s0)) as [Hlt|Hge]; [exact Hlt|].
    exfalso. exact (match_at_ws_tail w s0 _ m Hge H2). }
  split; [|exact Hlt].
  unfold exec. rewrite length_app, length_app. simpl.
  replace (Nat.leb last (length s0 + 1 + length t)) with true
    by (symmetry; apply Nat.leb_le; lia).
  apply (search_from_first _ _ _ (m_index m)).
  - intros k Hk. rewrite (match_at_ws_prefix w w_ws s0 t k) by lia. apply H3. lia.
  - rewrite (match_at_ws_prefix w w_ws s0 t) by lia. exact H2.
  - lia.
Qed.

Lemma loop_body_ws_prefix (last : nat) (m : regex_match) :
  exec (s0 ++ [w]) last = Some m ->
  loop_body isValidDomain ((s0 ++ [w]) ++ t) m = loop_body isValidDomain (s0 ++ [w]) m.
Proof.
  intros He. destruct (exec_ws_prefix last m He) as (He' & _).
  destruct (exec_match_facts _ _ _ He) as (_ & H3 & Hle & _).
  assert (Hsub : substring ((s0 ++ [w]) ++ t) (m_start m) (m_end m) =
                 substring (s0 ++ [w]) (m_start m) (m_end m)).
  { unfold substring. rewrite skipn_app_le by lia.
    apply firstn_app_le. rewrite length_skipn. lia. }
  unfold loop_body. cbv zeta.
  rewrite (index_of_group2 _ last m He'), (index_of_group2 _ last m He), Hsub.
  reflexivity.
Qed.

Lemma scan_loop_ws_prefix (fuel last : nat) (cs : list candidate) :
  scan_loop isValidDomain fuel (s0 ++ [w]) last = Some cs ->
  forall fuel', length ((s0 ++ [w]) ++ t) - last < fuel' ->
  exists rest, scan_loop isValidDomain fuel' ((s0 ++ [w]) ++ t) last = Some (cs ++ rest).
Proof.
  revert last cs. induction fuel as [|fuel IH]; intros last cs H fuel' Hf; [discriminate|].
  rewrite scan_loop_S in H.
  destruct (exec (s0 ++ [w]) last) as [m|] eqn:He.
  - destruct (exec_ws_prefix last m He) as (He' & _).
    destruct (exec_progress _ _ _ He) as (Hp & _).
    destruct fuel' as [|fuel'']; [lia|].
    rewrite scan_loop_S, He', (loop_body_ws_prefix last m He).
    assert (Hf' : length ((s0 ++ [w]) ++ t) - m_end m < fuel'')
      by (pose proof (length_app (s0 ++ [w]) t); lia).
    destruct (loop_body isValidDomain (s0 ++ [w]) m) as [c|].
    + destruct (scan_loop isValidDomain fuel (s0 ++ [w]) (m_end m)) as [rest0|] eqn:R;
        simpl in H; [|discriminate].
      inversion H; subst cs.
      destruct (IH _ _ R fuel'' Hf') as (rest & R').
      rewrite R'. exists rest. reflexivity.
    + apply (IH _ _ H fuel'' Hf').
  - inversion H; subst cs.
    destruct (scan_loop_enough_fuel isValidDomain ((s0 ++ [w]) ++ t) fuel' last Hf)
      as (cs' & R'). exists cs'. exact R'.
Qed.

End AfterWhitespaceLoop.

(** X10: text appended after a whitespace unit never changes the
    [cb(from, to)] calls made for the text before it: they come first,
    unchanged, and the appended text only adds calls after them. *)
Theorem iterateUris_append_after_whitespace (isValidDomain : jsstring -> bool)
  (s0 : jsstring) (w : char) (t : jsstring) :
  is_ws w = true ->
  exists rest, iterateUris isValidDomain ((s0 ++ [w]) ++ t) =
               iterateUris isValidDomain (s0 ++ [w]) ++ rest.
Proof.
  intros Hw.
  pose proof (scan_loop_fuel_irrelevant isValidDomain (s0 ++ [w]) _
                (Nat.lt_succ_diag_r _)) as H1.
  destruct (scan_loop_ws_prefix isValidDomain w Hw s0 t _ _ _ H1
              (S (length ((s0 ++ [w]) ++ t))) ltac:(lia)) as (rest & R).
  rewrite scan_loop_fuel_irrelevant in R by lia. inversion R as [R'].
  exists (map (fun c => (c_from c, c_to c)) rest).
  unfold iterateUris. rewrite R', map_app. reflexivity.
Qed.

(** * Further properties of the decorations and the plugin *)

Lemma text_content_le_size (n : node) : length (text_content n) <= node_size n.
Proof.
  induction n as [ms t|ty|ty cs Hcs] using node_ind'; simpl; [lia|lia|].
  enough (length (flat_map text_content cs) <=
          fold_right (fun c acc => node_size c + acc) 0 cs) by lia.
  induction Hcs as [|c cs Hc Hcs IH]; simpl; [lia|].
  rewrite length_app. lia.
Qed.

Lemma content_text_le_size (cs : list node) :
  length (flat_map text_content cs) <= fold_right (fun c acc => node_size c + acc) 0 cs.
Proof.
  induction cs as [|c cs IH]; simpl; [lia|].
  rewrite length_app. pose proof (text_content_le_size c). lia.
Qed.

Lemma iterateUris_nil (isValidDomain : jsstring -> bool) :
  iterateUris isValidDomain [] = [].
Proof. reflexivity. Qed.

Lemma iterateUris_bounds (isValidDomain : jsstring -> bool) (s : jsstring) (from to : Z) :
  In (from, to) (iterateUris isValidDomain s) ->
  (0 <= from < to)%Z /\ (to <= Z.of_nat (length s) + 1)%Z.
Proof.
  intros Hin. destruct (in_iterateUris isValidDomain s from to Hin) as (c & Hc & <- & <-).
  destruct (scan_origin isValidDomain s c Hc) as (l & m & He & Hb).
  destruct (loop_body_spec isValidDomain s l m c He Hb) as (Hf & Ht).
  destruct (exec_progress _ _ _ He) as (Hp & H3). lia.
Qed.

(** X8: every decoration has the class ["autolink"], is non-empty, and
    lies in the paragraph it was computed for: from the paragraph's
    position [pos] to at most the end of its content
    ([pos + nodeSize - 1]), never past its closing token. *)
Theorem getDecorations_within_paragraph (isValidDomain : jsstring -> bool) (doc : node)
  (d : decoration) :
  In d (getDecorations isValidDomain doc) ->
  d_class d = "autolink"%string /\
  exists pos p, In (pos, p) (findChildren doc is_paragraph) /\
    (Z.of_nat pos <= d_from d < d_to d)%Z /\
    (d_to d <= Z.of_nat (pos + node_size p) - 1)%Z.
Proof.
  unfold getDecorations. rewrite in_flat_map.
  intros ([pos p] & Hp & Hd). apply in_map_iff in Hd as ([from to] & <- & Hft).
  cbn [fst snd d_from d_to d_class] in *. split; [reflexivity|].
  exists pos, p. split; [exact Hp|].
  destruct (iterateUris_bounds isValidDomain _ _ _ Hft) as (Hlt & Hle).
  destruct p as [ms t|ty|ty cs].
  - exfalso. apply findChildren_spec in Hp as (_ & Hpar). discriminate.
  - change (In (from, to) (iterateUris isValidDomain [])) in Hft.
    rewrite iterateUris_nil in Hft. destruct Hft.
  - pose proof (text_content_le_size (Elem ty cs)) as Hs.
    assert (length (text_content (Elem ty cs)) + 2 <= node_size (Elem ty cs)).
    { simpl. pose proof (content_text_le_size cs). lia. }
    lia.
Qed.

(** X9: from the plugin's initial state on, after any sequence of
    transactions (each starting from the document the previous one
    left), the plugin state is exactly [getDecorations] of the current
    document: a step rebuilds it, a transaction without step leaves
    both the document and the set as they are. *)
Theorem linkDecorator_state_invariant (isValidDomain : jsstring -> bool) (doc : node)
  (trs : list (list step)) :
  let '(doc', ds') := plugin_run isValidDomain doc
                        (es_decorations (linkDecorator_init isValidDomain doc)) trs in
  doc' = fold_left (fun d st => step_apply st d) (concat trs) doc /\
  ds' = getDecorations isValidDomain doc'.
Proof.
  simpl. revert doc. induction trs as [|steps rest IH]; intros doc; simpl; [auto|].
  unfold linkDecorator_apply, docChanged, tr_doc. simpl.
  rewrite fold_left_app.
  destruct steps as [|st steps']; simpl; apply IH.
Qed.

(** ** Where the decorations land in the text *)

(** The unit before a span's [from] (when [from >= 1]) is the one group
    1 matched: a whitespace unit or ['(']. *)
Lemma iterateUris_separator (isValidDomain : jsstring -> bool) (s : jsstring) (from to : Z) :
  In (from, to) (iterateUris isValidDomain s) -> (1 <= from)%Z ->
  exists sep, nth_error s (Z.to_nat from - 1) = Some sep /\ (is_ws sep = true \/ sep = 40%N) /\
    (from + 2 <= to)%Z.
Proof.
  intros Hin H1. destruct (in_iterateUris isValidDomain s from to Hin) as (c & Hc & <- & <-).
  destruct (scan_origin isValidDomain s c Hc) as (l & m & He & Hb).
  destruct (loop_body_text isValidDomain s l m c He Hb) as (p & k & _ & Hk & Hf & Ht & _).
  destruct (exec_match_facts _ _ _ He) as (_ & H3 & _).
  destruct (exec_spec _ _ _ He) as (_ & G1 & _).
  rewrite Hf in *. rewrite Nat2Z.id.
  assert (Hto : (Z.of_nat (m_start m) + 2 <= c_to c)%Z) by lia.
  destruct G1 as [[Hj Hl] | [Hj (sep & Hsep & Hw)]].
  - destruct (m_index m) as [|i] eqn:Hi; [lia|].
    simpl in Hl. destruct (char_at s i) as [sep|] eqn:Hsep; [|discriminate].
    exists sep. rewrite Hj. replace (S i - 1) with i by lia.
    split; [exact Hsep|]. split; [left; apply lt_is_ws, Hl|lia].
  - exists sep. rewrite Hj. replace (S (m_index m) - 1) with (m_index m) by lia.
    split; [exact Hsep|]. split; [exact Hw|lia].
Qed.

(** X11: in a paragraph holding a single text node [t] at position
    [pos], text offset [k] sits between the positions [pos + 1 + k] and
    [pos + 2 + k].  The decoration [(pos + from, pos + to)] therefore
    covers the text offsets [from - 1 .. to - 2]: the separator before
    the link (whitespace or ['(']) followed by the link's text
    [from .. to - 2]; the [+ 1] of [to] lines its end up with the link's
    end, while its start is one unit early. *)
Theorem getDecorations_cover_separator (isValidDomain : jsstring -> bool) (doc : node)
  (pos : nat) (ty : string) (ms : list string) (t : jsstring) (from to : Z) :
  In (pos, Elem ty [Text ms t]) (findChildren doc is_paragraph) ->
  In (from, to) (iterateUris isValidDomain t) -> (1 <= from)%Z ->
  let d := {| d_from := Z.of_nat pos + from; d_to := Z.of_nat pos + to;
              d_class := "autolink" |} in
  In d (getDecorations isValidDomain doc) /\
  exists sep,
    substring t (Z.to_nat (d_from d - Z.of_nat pos - 1))
                (Z.to_nat (d_to d - Z.of_nat pos - 1)) =
      sep :: substring t (Z.to_nat from) (Z.to_nat (to - 1)) /\
    (is_ws sep = true \/ sep = 40%N).
Proof.
  intros Hp Hin H1 d. split.
  - unfold getDecorations. apply in_flat_map. exists (pos, Elem ty [Text ms t]).
    split; [exact Hp|]. apply in_map_iff. exists (from, to). simpl.
    rewrite app_nil_r. split; [reflexivity|exact Hin].
  - destruct (iterateUris_separator isValidDomain t from to Hin H1) as (sep & Hs & Hw & Hto).
    exists sep. split; [|exact Hw]. subst d. cbn [d_from d_to].
    replace (Z.to_nat (Z.of_nat pos + from - Z.of_nat pos - 1)) with (Z.to_nat from - 1)
      by lia.
    replace (Z.to_nat (Z.of_nat pos + to - Z.of_nat pos - 1)) with (Z.to_nat (to - 1)) by lia.
    unfold substring. rewrite (skipn_cons_nth t _ sep Hs).
    replace (Z.to_nat (to - 1) - (Z.to_nat from - 1))
      with (S (Z.to_nat (to - 1) - Z.to_nat from)) by lia.
    replace (S (Z.to_nat from - 1)) with (Z.to_nat from) by lia.
    reflexivity.
Qed.

(** * Instances of the further properties *)


Lemma iterateUris_span_bounds_witness :
  let s := js "see (foo.test/a). and http://x.y" in
  In (22%Z, 33%Z) (iterateUris (fun _ => true) s) /\
  (0 <= 22 < 33)%Z /\ (33 <= Z.of_nat (length s) + 1)%Z /\
  forall i : nat, (22 <= Z.of_nat i < 33 - 1)%Z ->
    exists ch, nth_error s i = Some ch /\ is_ws ch = false.
Proof.
  split; [vm_compute; right; left; reflexivity|].
  apply (iterateUris_span_bounds (fun _ => true) (js "see (foo.test/a). and http://x.y")).
  vm_compute. right. left. reflexivity.
Defined.

Lemma iterateUris_validated_witness :
  let s := js "see (foo.test/a). and http://x.y" in
  In (5%Z, 16%Z) (iterateUris (fun _ => true) s) /\
  (starts_with (js "http") (skipn 5 s) = true \/
   exists domain, domain <> [] /\ (fun _ => true) domain = true /\
                  starts_with domain (skipn 5 s) = true).
Proof.
  split; [vm_compute; left; reflexivity|].
  apply (iterateUris_validated (fun _ => true) (js "see (foo.test/a). and http://x.y") 5 16).
  vm_compute. left. reflexivity.
Defined.

Lemma iterateUris_reports_lowercase_scheme_witness :
  let s := js "see http://x.y" in
  (exists i c, 4 = S i /\ nth_error s i = Some c /\ is_ws c = true) /\
  starts_with (js "http://") (skipn 4 s) = true /\
  (exists c, nth_error (skipn 4 s) 7 = Some c /\ is_ws c = false) /\
  exists to, In (Z.of_nat 4, to) (iterateUris (fun _ => false) s) /\
             (Z.of_nat (4 + nonws_len (skipn 4 s)) - 1 <= to)%Z.
Proof.
  split; [exists 3, 32%N; vm_compute; auto|].
  split; [reflexivity|]. split; [exists 120%N; vm_compute; auto|].
  apply (iterateUris_reports_lowercase_scheme (fun _ => false) (js "see http://x.y") 4).
  - right. exists 3, 32%N. vm_compute. auto.
  - left. split; [reflexivity|]. exists 120%N. vm_compute. auto.
Defined.

Lemma iterateUris_reports_valid_domain_witness :
  let s := js "go to foo.test now" in
  group2_at s 6 = Some (14, Some (js "foo.test")) /\
  exists to, In (Z.of_nat 6, to) (iterateUris (fun _ => true) s) /\ (Z.of_nat 14 - 1 <= to)%Z.
Proof.
  split; [vm_compute; reflexivity|].
  apply (iterateUris_reports_valid_domain (fun _ => true) (js "go to foo.test now") 6 14
           (js "foo.test")).
  - right. exists 5, 32%N. vm_compute. auto.
  - vm_compute. reflexivity.
  - reflexivity.
Defined.

Lemma iterateUris_skips_uppercase_scheme_witness :
  let s := js "see HTTP://foo.test" in
  ci_prefix (js "http://") (skipn 4 s) = true /\
  starts_with (js "http") (skipn 4 s) = false /\
  ~ In (Z.of_nat 4, 20%Z) (iterateUris (fun _ => true) s).
Proof.
  split; [vm_compute; reflexivity|]. split; [vm_compute; reflexivity|].
  apply (iterateUris_skips_uppercase_scheme (fun _ => true) (js "see HTTP://foo.test") 4).
  - left. vm_compute. reflexivity.
  - vm_compute. reflexivity.
Defined.


Lemma getDecorations_within_paragraph_witness :
  let d := {| d_from := 6; d_to := 27; d_class := "autolink" |} in
  In d (getDecorations (fun _ => true) sample_doc) /\
  d_class d = "autolink"%string /\
  exists pos p, In (pos, p) (findChildren sample_doc is_paragraph) /\
    (Z.of_nat pos <= d_from d < d_to d)%Z /\
    (d_to d <= Z.of_nat (pos + node_size p) - 1)%Z.
Proof.
  split; [vm_compute; left; reflexivity|].
  apply (getDecorations_within_paragraph (fun _ => true) sample_doc).
  vm_compute. left. reflexivity.
Defined.

Lemma iterateUris_append_after_whitespace_witness :
  is_ws 32%N = true /\
  iterateUris (fun _ => true) ((js "see foo.test" ++ [32%N]) ++ js "and http://x.y") =
    [(4%Z, 13%Z); (17%Z, 28%Z)] /\
  exists rest, iterateUris (fun _ => true) ((js "see foo.test" ++ [32%N]) ++ js "and http://x.y") =
               iterateUris (fun _ => true) (js "see foo.test" ++ [32%N]) ++ rest.
Proof.
  split; [reflexivity|]. split; [vm_compute; reflexivity|].
  apply (iterateUris_append_after_whitespace (fun _ => true) (js "see foo.test") 32%N
           (js "and http://x.y")).
  reflexivity.
Defined.

Lemma getDecorations_cover_separator_witness :
  let doc := Elem "doc" [Elem "paragraph" [Text [] (js "see foo.test")]] in
  In (0, Elem "paragraph" [Text [] (js "see foo.test")]) (findChildren doc is_paragraph) /\
  In (4%Z, 13%Z) (iterateUris (fun _ => true) (js "see foo.test")) /\
  In {| d_from := 4; d_to := 13; d_class := "autolink" |}
     (getDecorations (fun _ => true) doc) /\
  exists sep,
    substring (js "see foo.test") (Z.to_nat (4 - 0 - 1)) (Z.to_nat (13 - 0 - 1)) =
      sep :: substring (js "see foo.test") 4 12 /\
    (is_ws sep = true \/ sep = 40%N).
Proof.
  split; [vm_compute; left; reflexivity|].
  split; [vm_compute; left; reflexivity|].
  apply (getDecorations_cover_separator (fun _ => true)
           (Elem "doc" [Elem "paragraph" [Text [] (js "see foo.test")]]) 0 "paragraph" []
           (js "see foo.test") 4 13).
  - vm_compute. left. reflexivity.
  - vm_compute. left. reflexivity.
  - lia.
Defined.
